(** * Movie recommendation service: the recommendation lookup and its
      enrichment pipeline ([app.py])

    The development embeds the part of [app.py] that computes something:
    the two enrichment clients ([fetch_movie_poster], [fetch_movie_trailer]),
    [recommend], and the two routes that read the catalog ([home],
    [recommend_movies]).

    Modelling choices.
    - Python values that can fail are computed in an exception monad
      ([result]); the exceptions are the ones the interpreter raises on the
      paths of these functions.
    - The global DataFrame [movies] and the matrix [similarity] form the
      [store]; [recommend] assigns to [movies['title']], so it returns the
      store it leaves behind together with its result.
    - [requests.get] is an oracle [world]: the answer to the [k]-th request
      of a call, as a function of the URL.
    - Titles are byte strings.  On the ASCII range [isspace] and [lower]
      are those of Python's [str]; bytes above 127 are kept as they are.
      [PyUnicode] has [str.strip] and [str.lower] in full, on code points,
      and [AsciiFacts.normalize_ascii] shows the byte-string functions to
      be their restriction to ASCII.
    - Similarity scores are finite floats, compared by [<] only; they are
      modelled by the rationals they denote ([Q]). *)

From Stdlib Require Import List String Ascii Bool Arith ZArith QArith Lia.
From Stdlib Require Import Sorting.Sorted Sorting.Permutation.
Import ListNotations.
Close Scope Q_scope.
Open Scope nat_scope.

#[local] Set Warnings "-register-all".

(** ** Python strings: [strip] and [lower] *)

Module PyStr.

(** [str.isspace] on one character, ASCII range: TAB, LF, VT, FF, CR,
    FS, GS, RS, US and SPACE.  The white space beyond ASCII is in
    [PyUnicode.is_space]. *)
Definition is_space (c : ascii) : bool :=
  let n := nat_of_ascii c in
  ((9 <=? n) && (n <=? 13)) || ((28 <=? n) && (n <=? 32)).

(** [str.lower] on one character, ASCII range.  The mappings beyond ASCII
    are in [PyUnicode.lower]. *)
Definition lower_char (c : ascii) : ascii :=
  let n := nat_of_ascii c in
  if (65 <=? n) && (n <=? 90) then ascii_of_nat (n + 32) else c.

Fixpoint lower (s : string) : string :=
  match s with
  | EmptyString => EmptyString
  | String c r => String (lower_char c) (lower r)
  end.

Fixpoint lstrip (s : string) : string :=
  match s with
  | EmptyString => EmptyString
  | String c r => if is_space c then lstrip r else s
  end.

Fixpoint rstrip (s : string) : string :=
  match s with
  | EmptyString => EmptyString
  | String c r =>
      match rstrip r with
      | EmptyString => if is_space c then EmptyString else String c EmptyString
      | r' => String c r'
      end
  end.

(** [s.strip()] *)
Definition strip (s : string) : string := rstrip (lstrip s).

(** [s.strip().lower()], the normalization [recommend] applies to the query
    and to the title column. *)
Definition normalize (s : string) : string := lower (strip s).

(** [needle in haystack] for two strings. *)
Fixpoint contains (needle haystack : string) : bool :=
  String.prefix needle haystack ||
  match haystack with
  | EmptyString => false
  | String _ r => contains needle r
  end.

End PyStr.

(** ** Exceptions *)

(** The exceptions the interpreter can raise on the paths modelled here.
    [ConnectionError] stands for every [requests.RequestException]. *)
Inductive exn : Type :=
| ConnectionError
| JSONDecodeError
| TypeError
| KeyError
| IndexError
| ValueError.

Inductive result (A : Type) : Type :=
| Ok (a : A)
| Raise (e : exn).

Arguments Ok {A} a.
Arguments Raise {A} e.

Definition bind {A B : Type} (c : result A) (k : A -> result B) : result B :=
  match c with
  | Ok a => k a
  | Raise e => Raise e
  end.

Notation "x <- c ;; k" := (bind c (fun x => k))
  (at level 61, c at next level, right associativity).

(** ** Decoded JSON values and the Python operations applied to them *)

Module Json.

(** What [response.json()] returns.  An object is the decoded [dict], kept
    as an association list; [lookup] reads the first binding of a key. *)
Inductive json : Type :=
| JNull
| JBool (b : bool)
| JNum (q : Q)
| JStr (s : string)
| JArr (l : list json)
| JObj (kv : list (string * json)).

Fixpoint lookup (k : string) (kv : list (string * json)) : option json :=
  match kv with
  | [] => None
  | (k', v) :: r => if String.eqb k' k then Some v else lookup k r
  end.

Definition is_str (k : string) (v : json) : bool :=
  match v with
  | JStr s => String.eqb s k
  | _ => false
  end.

(** [k in v] for a string [k]: key test on a dict, membership in a list,
    substring test on a string, [TypeError] on the other values. *)
Definition py_in (k : string) (v : json) : result bool :=
  match v with
  | JObj kv => Ok (match lookup k kv with Some _ => true | None => false end)
  | JArr l => Ok (existsb (is_str k) l)
  | JStr s => Ok (PyStr.contains k s)
  | _ => Raise TypeError
  end.

(** [v[k]] for a string [k]. *)
Definition getitem_str (v : json) (k : string) : result json :=
  match v with
  | JObj kv =>
      match lookup k kv with
      | Some x => Ok x
      | None => Raise KeyError
      end
  | _ => Raise TypeError
  end.

(** [len(v)] *)
Definition py_len (v : json) : result nat :=
  match v with
  | JArr l => Ok (List.length l)
  | JStr s => Ok (String.length s)
  | JObj kv => Ok (List.length kv)
  | _ => Raise TypeError
  end.

(** [v[0]]; the keys of a decoded object are strings, so [0] is never one. *)
Definition getitem_0 (v : json) : result json :=
  match v with
  | JArr (x :: _) => Ok x
  | JArr [] => Raise IndexError
  | JStr (String c _) => Ok (JStr (String c EmptyString))
  | JStr EmptyString => Raise IndexError
  | JObj _ => Raise KeyError
  | _ => Raise TypeError
  end.

(** [v != s] for a string literal [s]. *)
Definition ne_str (v : json) (s : string) : bool := negb (is_str s v).

(** A decoded value as the caller of a function that returns it sees it:
    JSON [null] is Python's [None], which is also what the function
    returns when it has nothing. *)
Definition as_optional (v : json) : option json :=
  match v with
  | JNull => None
  | _ => Some v
  end.

End Json.
Import Json.

(** ** HTTP *)

(** A received response: its status code and its body, [None] when the
    body is not JSON. *)
Record response : Type := {
  status_code : Z;
  body : option json
}.

(** [response.json()] *)
Definition response_json (r : response) : result json :=
  match body r with
  | Some j => Ok j
  | None => Raise JSONDecodeError
  end.

(** [requests.get] for one request, as a function of the URL; a network
    failure raises. *)
Definition http_get : Type := string -> result response.

(** The providers during one call of [recommend]: request number, then URL. *)
Definition world : Type := nat -> http_get.

(** ** Process environment *)

(** The two API keys as they print in a URL, and the text an f-string
    gives a decoded value that is not a string. *)
Record env : Type := {
  OMDB_API_KEY : string;
  YOUTUBE_API_KEY : string;
  format_other : json -> string
}.

(** [f"{v}"] *)
Definition format_value (E : env) (v : json) : string :=
  match v with
  | JStr s => s
  | _ => format_other E v
  end.

(** ** Enrichment clients *)

Definition poster_url (E : env) (movie_title : string) : string :=
  ("http://www.omdbapi.com/?t=" ++ movie_title ++ "&apikey=" ++ OMDB_API_KEY E)%string.

Definition fetch_movie_poster (E : env) (get : http_get) (movie_title : string)
  : result (option json) :=
  response <- get (poster_url E movie_title) ;;
  if (status_code response =? 200)%Z then
    data <- response_json response ;;
    has <- py_in "Poster" data ;;
    if has then
      poster <- getitem_str data "Poster" ;;
      if ne_str poster "N/A" then Ok (as_optional poster) else Ok None
    else Ok None
  else Ok None.

Definition trailer_url (E : env) (movie_title : string) : string :=
  ("https://www.googleapis.com/youtube/v3/search?part=snippet&q=" ++ movie_title
   ++ "+official+trailer&type=video&maxResults=1&key=" ++ YOUTUBE_API_KEY E)%string.

Definition fetch_movie_trailer (E : env) (get : http_get) (movie_title : string)
  : result (option string) :=
  response <- get (trailer_url E movie_title) ;;
  if (status_code response =? 200)%Z then
    data <- response_json response ;;
    has <- py_in "items" data ;;
    if has then
      items <- getitem_str data "items" ;;
      n <- py_len items ;;
      if 0 <? n then
        first <- getitem_0 items ;;
        id <- getitem_str first "id" ;;
        video_id <- getitem_str id "videoId" ;;
        Ok (Some ("https://www.youtube.com/watch?v=" ++ format_value E video_id)%string)
      else Ok None
    else Ok None
  else Ok None.

(** ** The catalog store *)

(** The DataFrame [movies] (its [title] column, row [i] at position [i]) and
    the matrix [similarity], one row of scores per movie. *)
Record store : Type := {
  titles : list string;
  similarity : list (list Q)
}.

(** The store invariant of the data model: as many rows as movies, and
    every row as long as the catalog. *)
Definition square (st : store) : Prop :=
  List.length (similarity st) = List.length (titles st) /\
  Forall (fun row => List.length row = List.length (titles st)) (similarity st).

(** ** [sorted(..., reverse=True, key=lambda x: x[1])] *)

(** [a < b] on scores, the only comparison the sort makes. *)
Definition score_lt (a b : Q) : bool := negb (Qle_bool b a).

(** [sorted] is stable, with [reverse=True] too: of two entries the later
    one overtakes the earlier only when its key is strictly greater. *)
Fixpoint insert_desc (x : nat * Q) (l : list (nat * Q)) : list (nat * Q) :=
  match l with
  | [] => [x]
  | y :: r => if score_lt (snd x) (snd y) then y :: insert_desc x r else x :: l
  end.

Definition sorted_reverse (l : list (nat * Q)) : list (nat * Q) :=
  fold_right insert_desc [] l.

(** [list(enumerate(distances))] *)
Definition enumerate (distances : list Q) : list (nat * Q) :=
  combine (seq 0 (List.length distances)) distances.

(** Line 114: the sorted pairs, sliced with [[1:21]]. *)
Definition movies_list (distances : list Q) : list (nat * Q) :=
  firstn 20 (skipn 1 (sorted_reverse (enumerate distances))).

(** ** [recommend] *)

(** What [recommend] returns: the pair of the two early exits, or the
    triple of the last line. *)
Inductive returned : Type :=
| Pair2 (recommended_movies : list string) (recommended_posters : list (option json))
| Triple (recommended_movies : list string)
         (recommended_posters : list (option json))
         (trailers : list (option string)).

(** [movies[movies['title'] == movie].index[0]].  The DataFrame carries the
    index of the data model, under which the label of a row is its position
    in the catalog (the default RangeIndex), so the label the code reads is
    the position of the first match. *)
Fixpoint first_index (movie : string) (col : list string) : option nat :=
  match col with
  | [] => None
  | t :: r => if String.eqb t movie then Some 0 else option_map S (first_index movie r)
  end.

(** Indexing that raises [IndexError] out of range: [.index[0]],
    [similarity[i]], [movies.iloc[i]]. *)
Definition at_index {A : Type} (o : option A) : result A :=
  match o with
  | Some a => Ok a
  | None => Raise IndexError
  end.

(** The loop of lines 120-126 over the rest of [movies_list], with the three
    lists built so far; [k] requests have been issued. *)
Fixpoint enrich (E : env) (w : world) (col : list string) (ml : list (nat * Q)) (k : nat)
    (recommended_movies : list string) (recommended_posters : list (option json))
    (trailers : list (option string)) : result returned :=
  match ml with
  | [] => Ok (Triple recommended_movies recommended_posters trailers)
  | i :: rest =>
      movie_title <- at_index (nth_error col (fst i)) ;;
      poster <- fetch_movie_poster E (w k) movie_title ;;
      trailer <- fetch_movie_trailer E (w (S k)) movie_title ;;
      enrich E w col rest (S (S k))
        (recommended_movies ++ [movie_title])
        (recommended_posters ++ [poster])
        (trailers ++ [trailer])
  end.

(** The store after line 105. *)
Definition normalize_titles (st : store) : store :=
  {| titles := map PyStr.normalize (titles st); similarity := similarity st |}.

(** [recommend(movie)]: the store it leaves and what it returns or raises.
    [None] is the Python [None]. *)
Definition recommend (E : env) (st : store) (w : world) (movie : option string)
  : store * result returned :=
  match movie with
  | None => (st, Ok (Pair2 [] []))
  | Some m =>
      if String.eqb (PyStr.strip m) "" then (st, Ok (Pair2 [] []))
      else
        let movie := PyStr.normalize m in
        let st1 := normalize_titles st in
        (st1,
         if negb (existsb (String.eqb movie) (titles st1)) then Ok (Pair2 [] [])
         else
           movie_index <- at_index (first_index movie (titles st1)) ;;
           distances <- at_index (nth_error (similarity st1) movie_index) ;;
           enrich E w (titles st1) (movies_list distances) 0 [] [] [])
  end.

(** ** Routes *)

(** The context [index.html] is rendered with. *)
Record page : Type := {
  movie_list : list string;
  recommendations : list string;
  posters : list (option json);
  page_trailers : list (option string);
  selected_movie : option string
}.

(** [home]: the movie list handed to the template. *)
Definition home (st : store) : list string := titles st.

(** [recommend_movies] for a logged-in user: the form field, the call, the
    unpacking into three names, the render. *)
Definition recommend_movies (E : env) (st : store) (w : world) (selected : option string)
  : store * result page :=
  let (st', r) := recommend E st w selected in
  (st',
   ret <- r ;;
   match ret with
   | Triple recs ps trs =>
       Ok {| movie_list := titles st';
             recommendations := recs;
             posters := ps;
             page_trailers := trs;
             selected_movie := selected |}
   | Pair2 _ _ => Raise ValueError
   end).

(** ** Auxiliary definitions for the statements *)

(** One turn of the loop of [recommend] taken alone: the title, poster and
    trailer of entry [i] when [k] requests have been issued. *)
Definition slot (E : env) (w : world) (col : list string) (k : nat) (i : nat * Q)
  : result (string * option json * option string) :=
  movie_title <- at_index (nth_error col (fst i)) ;;
  poster <- fetch_movie_poster E (w k) movie_title ;;
  trailer <- fetch_movie_trailer E (w (S k)) movie_title ;;
  Ok (movie_title, poster, trailer).

Fixpoint slots (E : env) (w : world) (col : list string) (ml : list (nat * Q)) (k : nat)
  : result (list (string * option json * option string)) :=
  match ml with
  | [] => Ok []
  | i :: rest =>
      x <- slot E w col k i ;;
      xs <- slots E w col rest (S (S k)) ;;
      Ok (x :: xs)
  end.

Definition slot_title (x : string * option json * option string) : string := fst (fst x).
Definition slot_poster (x : string * option json * option string) : option json := snd (fst x).
Definition slot_trailer (x : string * option json * option string) : option string := snd x.

(** [a] ranks before [b]: a strictly greater score, or the same score and a
    smaller catalog index. *)
Definition ranks_before (a b : nat * Q) : Prop :=
  (snd b < snd a)%Q \/ ((snd a == snd b)%Q /\ fst a < fst b).

(** The score at [idx] is the first maximum of the row: greater than every
    score before it, and not less than any score after it. *)
Definition first_maximum (row : list Q) (idx : nat) : Prop :=
  (forall j, j < idx -> (nth j row 0 < nth idx row 0)%Q) /\
  (forall j, idx < j -> j < List.length row -> (nth j row 0 <= nth idx row 0)%Q).

(** The input is [None] or strips to the empty string. *)
Definition blank (movie : option string) : bool :=
  match movie with
  | None => true
  | Some m => String.eqb (PyStr.strip m) ""
  end.

(** A title [recommend] looks up and finds: not blank, and its normal form
    is the normal form of a catalog title. *)
Definition valid (st : store) (m : string) : Prop :=
  blank (Some m) = false /\
  In (PyStr.normalize m) (map PyStr.normalize (titles st)).

(** An answer whose decoded object has no usable poster: the field is
    missing or holds the placeholder. *)
Definition no_poster (r : response) : Prop :=
  exists kv, body r = Some (JObj kv) /\
             (lookup "Poster" kv = None \/ lookup "Poster" kv = Some (JStr "N/A")).

(** An answer whose decoded object has no search result: [items] is
    missing or empty. *)
Definition no_items (r : response) : Prop :=
  exists kv, body r = Some (JObj kv) /\
             (lookup "items" kv = None \/
              exists items, lookup "items" kv = Some items /\ py_len items = Ok 0).

(** ** Fixtures *)

Definition test_env : env :=
  {| OMDB_API_KEY := "omdb-key"; YOUTUBE_API_KEY := "yt-key";
     format_other := fun _ => "?"%string |}.

(** A 404 answer with a body that is not JSON, and a world that gives it
    to every request. *)
Definition not_found : response := {| status_code := 404; body := None |}.

Definition world_404 : world := fun _ _ => Ok not_found.

(** A 200 answer that serves both clients: a poster field and one search
    result. *)
Definition found : response :=
  {| status_code := 200;
     body := Some (JObj
       [("Poster"%string, JStr "http://img.example/p.jpg");
        ("items"%string,
         JArr [JObj [("id"%string, JObj [("videoId"%string, JStr "abc123")])]])]) |}.

Definition world_ok : world := fun _ _ => Ok found.

(** Every request fails on the network. *)
Definition world_down : world := fun _ _ => Raise ConnectionError.

(** A 200 answer whose body is not JSON. *)
Definition malformed : response := {| status_code := 200; body := None |}.

(** A 200 answer with the placeholder poster and an empty result list. *)
Definition placeholder : response :=
  {| status_code := 200;
     body := Some (JObj [("Poster"%string, JStr "N/A"); ("items"%string, JArr [])]) |}.

(** A 200 answer with one search result that carries no video identifier. *)
Definition no_video_id : response :=
  {| status_code := 200;
     body := Some (JObj [("items"%string, JArr [JObj [("id"%string, JObj [])]])]) |}.

(** The world [w], except that request number [n] gets the outcome [r]. *)
Definition override (w : world) (n : nat) (r : result response) : world :=
  fun k url => if k =? n then r else w k url.

(** The catalog of the scenario, with the first similarity row as given. *)
Definition scenario (rest : list (list Q)) : store :=
  {| titles := ["Inception"; "Interstellar"; "Tenet"]%string;
     similarity := [1; 8 # 10; 3 # 10]%Q :: rest |}.

Definition scenario_rest : list (list Q) :=
  [[8 # 10; 1; 5 # 10]; [3 # 10; 5 # 10; 1]]%Q.

(** Two movies that score 1 against each other, as two entries with the
    same tags do. *)
Definition twins : store :=
  {| titles := ["Alpha"; "Beta"]%string;
     similarity := [[1; 1]; [1; 1]]%Q |}.

(** ** Python strings as code points: [str.strip] and [str.lower] in full *)

(** The functions of [PyStr] are the restriction to ASCII of the functions
    here, which follow CPython on every string.  The white space of
    [str.isspace] is listed; the case mappings belong to the Unicode
    database of the interpreter, which is not part of the source: they are
    taken as parameters ([tables]). *)
Module PyUnicode.

Local Open Scope N_scope.

(** A [str]: the list of its code points. *)
Definition str : Type := list N.

(** [str.isspace] on one code point; [str.strip()] removes these and no
    others. *)
Definition is_space (c : N) : bool :=
  ((0x09 <=? c) && (c <=? 0x0D)) || ((0x1C <=? c) && (c <=? 0x20))
  || (c =? 0x85) || (c =? 0xA0) || (c =? 0x1680)
  || ((0x2000 <=? c) && (c <=? 0x200A))
  || (c =? 0x2028) || (c =? 0x2029) || (c =? 0x202F) || (c =? 0x205F)
  || (c =? 0x3000).

Fixpoint lstrip (s : str) : str :=
  match s with
  | [] => []
  | c :: r => if is_space c then lstrip r else s
  end.

Fixpoint rstrip (s : str) : str :=
  match s with
  | [] => []
  | c :: r =>
      match rstrip r with
      | [] => if is_space c then [] else [c]
      | r' => c :: r'
      end
  end.

(** [s.strip()] *)
Definition strip (s : str) : str := rstrip (lstrip s).

(** What [str.lower] reads in the Unicode database: the full lower-case
    mapping of a code point (one code point or several), and the
    properties Cased and Case_Ignorable. *)
Record tables : Type := {
  to_lower_full : N -> list N;
  is_cased : N -> bool;
  is_case_ignorable : N -> bool
}.

Definition capital_sigma : N := 0x3A3.
Definition final_small_sigma : N := 0x3C2.
Definition small_sigma : N := 0x3C3.

(** The scan of [handle_capital_sigma] in one direction: skip the
    case-ignorable code points, then say whether a cased one was met. *)
Fixpoint cased_past_ignorables (T : tables) (l : list N) : bool :=
  match l with
  | [] => false
  | c :: r => if is_case_ignorable T c then cased_past_ignorables T r else is_cased T c
  end.

(** A capital sigma is final when a cased code point stands before it and
    none after it, case-ignorable ones apart.  [before] is read from the
    sigma backwards, [after] forwards. *)
Definition final_sigma (T : tables) (before after : list N) : bool :=
  cased_past_ignorables T before && negb (cased_past_ignorables T after).

(** What [lower_ucs4] makes of one code point, with what stands before
    and after it: a small sigma for the capital sigma, the mapping of the
    table for the others. *)
Definition image (T : tables) (before : list N) (c : N) (after : list N) : list N :=
  if c =? capital_sigma
  then [if final_sigma T before after then final_small_sigma else small_sigma]
  else to_lower_full T c.

(** [s.lower()] from a position on; [before] holds the code points already
    passed, the nearest first. *)
Fixpoint lower_from (T : tables) (before : list N) (s : str) : str :=
  match s with
  | [] => []
  | c :: r => image T before c r ++ lower_from T (c :: before) r
  end.

(** [s.lower()] *)
Definition lower (T : tables) (s : str) : str := lower_from T [] s.

(** [s.strip().lower()] *)
Definition normalize (T : tables) (s : str) : str := lower T (strip s).

(** The string is made of white space only. *)
Definition white (s : str) : Prop := Forall (fun c => is_space c = true) s.

(** [movie is None or movie.strip() == ""] *)
Definition blank (movie : option str) : bool :=
  match movie with
  | None => true
  | Some m => match strip m with [] => true | _ => false end
  end.

(** What the proofs use of the lower-case mappings.  Each holds of
    CPython's tables, as a run over all code points shows: a mapping is
    never empty; the mapping of a code point that is not white space holds
    no white space; the code points of a mapping are their own mapping and
    none is the capital sigma; the two small sigmas are their own mapping. *)
Definition well_formed (T : tables) : Prop :=
  (forall c, c <> capital_sigma -> to_lower_full T c <> []) /\
  (forall c d, c <> capital_sigma -> is_space c = false ->
               In d (to_lower_full T c) -> is_space d = false) /\
  (forall c d, c <> capital_sigma -> In d (to_lower_full T c) ->
               d <> capital_sigma /\ to_lower_full T d = [d]) /\
  to_lower_full T final_small_sigma = [final_small_sigma] /\
  to_lower_full T small_sigma = [small_sigma].

(** A part of the tables, for examples.  It agrees with CPython's on the
    code points below U+0100, on the combining marks U+0300 to U+036F, on
    the Greek letters U+0391 to U+03C9 and on U+0130, the capital I with
    dot, the one code point whose mapping has two. *)
Definition sample_tables : tables :=
  {| to_lower_full := fun c =>
       if ((0x41 <=? c) && (c <=? 0x5A))
          || ((0xC0 <=? c) && (c <=? 0xDE) && negb (c =? 0xD7))
          || ((0x391 <=? c) && (c <=? 0x3AB) && negb (c =? 0x3A2))
       then [c + 32]
       else if c =? 0x130 then [0x69; 0x307]
       else [c];
     is_cased := fun c =>
       ((0x41 <=? c) && (c <=? 0x5A)) || ((0x61 <=? c) && (c <=? 0x7A))
       || (c =? 0xAA) || (c =? 0xB5) || (c =? 0xBA)
       || ((0xC0 <=? c) && (c <=? 0xFF) && negb (c =? 0xD7) && negb (c =? 0xF7))
       || ((0x391 <=? c) && (c <=? 0x3C9) && negb (c =? 0x3A2))
       || (c =? 0x130);
     is_case_ignorable := fun c =>
       (c =? 0x27) || (c =? 0x2E) || (c =? 0x3A) || (c =? 0x5E) || (c =? 0x60)
       || (c =? 0xA8) || (c =? 0xAD) || (c =? 0xAF) || (c =? 0xB4) || (c =? 0xB7)
       || (c =? 0xB8)
       || ((0x300 <=? c) && (c <=? 0x36F)) |}.

(** An example: a no-break space, the Greek word for street in capitals,
    a space, a capital E with acute and an em space. *)
Definition odos : str := [0xA0; 0x39F; 0x394; 0x39F; 0x3A3; 0x20; 0xC9; 0x2003].

(** The code points of a string of ASCII characters. *)
Definition codes (s : string) : str := map N_of_ascii (list_ascii_of_string s).

Definition ascii_only (s : string) : Prop :=
  Forall (fun c => N_of_ascii c < 128) (list_ascii_of_string s).

End PyUnicode.

(** ** Definitions for the further properties *)

(** The entry has score [q]. *)
Definition has_score (q : Q) (x : nat * Q) : bool := Qeq_bool (snd x) q.

(** ** Accounts and sessions *)

Module Accounts.

(** A row of the table of the model [User]. *)
Record User : Type := {
  id : nat;
  username : string;
  password : string
}.

Definition table : Type := list User.

(** What the database backend decides, the URI being read from the
    environment: whether it enforces the length of [String(150)], and when
    it takes two user names for equal (its collation). *)
Record backend : Type := {
  strict_length : bool;
  same_name : string -> string -> bool
}.

(** Flask-Bcrypt.  [generate_password_hash] draws a salt, passed here as
    its first argument; both functions get the form field as it is, [None]
    when the field is absent, and may raise. *)
Record Bcrypt : Type := {
  generate_password_hash : string -> option string -> result string;
  check_password_hash : string -> option string -> result bool
}.

(** What a route raises: an exception of the interpreter or of a library
    called with Python values, or [sqlalchemy.exc.DatabaseError], the class
    of [IntegrityError] and [DataError]. *)
Inductive raised : Type :=
| Builtin (e : exn)
| DatabaseError.

Inductive outcome (A : Type) : Type :=
| Done (a : A)
| Raised (e : raised).

Arguments Done {A} a.
Arguments Raised {A} e.

(** [User.query.filter_by(username=u).first()].  The column is NOT NULL,
    so an absent field matches no row. *)
Definition first_by_username (K : backend) (db : table) (u : option string)
  : option User :=
  match u with
  | None => None
  | Some name => find (fun r => same_name K (username r) name) db
  end.

(** [User.query.get(i)] *)
Definition get (db : table) (i : nat) : option User :=
  find (fun r => id r =? i) db.

(** The primary key the database gives a new row: greater than every key
    of the table. *)
Definition next_id (db : table) : nat := S (fold_right Nat.max 0 (map id db)).

Definition too_long (s : string) : bool := 150 <? String.length s.

(** [db.session.add(User(username=u, password=h)); db.session.commit()]
    with the constraints of the model: [username] NOT NULL and UNIQUE, both
    columns [String(150)].  A refused row leaves the table as it was. *)
Definition add_commit (K : backend) (db : table) (u : option string) (h : string)
  : outcome table :=
  match u with
  | None => Raised DatabaseError
  | Some name =>
      if existsb (fun r => same_name K (username r) name) db
         || (strict_length K && (too_long name || too_long h))
      then Raised DatabaseError
      else Done (db ++ [{| id := next_id db; username := name; password := h |}])
  end.

Inductive method : Type := GET | POST.

(** The parts of a request the routes read. *)
Record request : Type := {
  req_method : method;
  form_username : option string;
  form_password : option string;
  args_next : option string
}.

(** What a view returns: [render_template(file, name=...)],
    [redirect(url)], or the answer of [LoginManager.unauthorized()], which
    sends the browser to the login view. *)
Inductive reply : Type :=
| Render (file : string) (name : option string)
| Redirect (url : string)
| Unauthorized.

(** [flash(message, category)]; the category defaults to "message". *)
Definition flash : Type := (string * string)%type.

(** [register]: the table it leaves, the messages it flashes, its reply. *)
Definition register (K : backend) (B : Bcrypt) (salt : string) (db : table)
    (rq : request) : table * list flash * outcome reply :=
  match req_method rq with
  | POST =>
      match first_by_username K db (form_username rq) with
      | Some _ =>
          (db,
           [("Username already exists. Please choose a different one."%string,
             "message"%string)],
           Done (Redirect "/register"))
      | None =>
          match generate_password_hash B salt (form_password rq) with
          | Raise e => (db, [], Raised (Builtin e))
          | Ok hashed_password =>
              match add_commit K db (form_username rq) hashed_password with
              | Raised e => (db, [], Raised e)
              | Done db' =>
                  (db',
                   [("Registration successful! Please log in."%string, "message"%string)],
                   Done (Redirect "/login"))
              end
          end
      end
  | GET => (db, [], Done (Render "register.html" None))
  end.

(** [next_page or url_for('home')] *)
Definition next_or_home (next_page : option string) : string :=
  match next_page with
  | None => "/"
  | Some EmptyString => "/"
  | Some url => url
  end.

(** [login]: the user id the session holds afterwards ([login_user] stores
    the id of the user), the messages flashed, the reply. *)
Definition login (K : backend) (B : Bcrypt) (db : table) (session : option nat)
    (rq : request) : option nat * list flash * outcome reply :=
  match req_method rq with
  | POST =>
      let failed :=
        (session,
         [("Login failed. Check username and password."%string, "danger"%string)],
         Done (Render "login.html" None)) in
      match first_by_username K db (form_username rq) with
      | None => failed
      | Some user =>
          match check_password_hash B (password user) (form_password rq) with
          | Raise e => (session, [], Raised (Builtin e))
          | Ok true =>
              (Some (id user), [], Done (Redirect (next_or_home (args_next rq))))
          | Ok false => failed
          end
      end
  | GET => (session, [], Done (Render "login.html" None))
  end.

(** [load_user], and through it [current_user]: the row of the id the
    session holds, if any. *)
Definition load_user (db : table) (user_id : nat) : option User := get db user_id.

Definition current_user (db : table) (session : option nat) : option User :=
  match session with
  | Some user_id => load_user db user_id
  | None => None
  end.

(** [logout], behind [login_required]. *)
Definition logout (db : table) (session : option nat) : option nat * reply :=
  match current_user db session with
  | Some _ => (None, Redirect "/login")
  | None => (session, Unauthorized)
  end.

(** [dashboard], behind [login_required]. *)
Definition dashboard (db : table) (session : option nat) : reply :=
  match current_user db session with
  | Some user => Render "dashboard.html" (Some (username user))
  | None => Unauthorized
  end.

(** No two rows have the same name for the backend, nor the same id. *)
Definition unique (K : backend) (db : table) : Prop :=
  (forall i j ri rj,
      nth_error db i = Some ri -> nth_error db j = Some rj ->
      same_name K (username ri) (username rj) = true -> i = j) /\
  NoDup (map id db).

(** Fixtures: a backend that compares names byte by byte and enforces
    lengths, and a stand-in for bcrypt that ignores the salt. *)
Definition binary_backend : backend :=
  {| strict_length := true; same_name := String.eqb |}.

Definition toy_bcrypt : Bcrypt :=
  {| generate_password_hash := fun _ pw =>
       match pw with
       | None => Raise ValueError
       | Some EmptyString => Raise ValueError
       | Some p => Ok ("h:" ++ p)%string
       end;
     check_password_hash := fun h pw =>
       match pw with
       | None => Raise TypeError
       | Some p => Ok (String.eqb h ("h:" ++ p))
       end |}.

Definition post (u p : string) (next_page : option string) : request :=
  {| req_method := POST; form_username := Some u; form_password := Some p;
     args_next := next_page |}.

End Accounts.

(** ** Tactics *)

(** Rewrites the request number of the turn in the goal to [n]. *)
Ltac renumber n :=
  match goal with
  | |- context [slot _ _ _ ?k _] => replace k with n by lia
  end.

(** Rewrite the request number of the client call in the goal to [n]. *)
Ltac poster_request n :=
  match goal with
  | |- fetch_movie_poster _ (_ ?a) _ = _ => replace a with n by lia
  end.

Ltac trailer_request n :=
  match goal with
  | |- fetch_movie_trailer _ (_ ?a) _ = _ => replace a with n by lia
  end.

(** Decides the comparisons of code points in the goal, one after the
    other, dropping the cases the hypotheses exclude. *)
Ltac split_cmp :=
  match goal with
  | |- context [(?a <=? ?b)%N] => destruct (N.leb_spec a b)
  | |- context [(?a =? ?b)%N] => destruct (N.eqb_spec a b)
  end.

Ltac decide_cmp := repeat (split_cmp; try (exfalso; lia)); simpl.

(** * Properties *)

(** ** Normalization *)

Module PyStrFacts.
Import PyStr.

Lemma lower_char_idem (c : ascii) : lower_char (lower_char c) = lower_char c.
Proof. destruct c as [[] [] [] [] [] [] [] []]; reflexivity. Qed.

Lemma is_space_lower_char (c : ascii) : is_space (lower_char c) = is_space c.
Proof. destruct c as [[] [] [] [] [] [] [] []]; reflexivity. Qed.

Lemma lower_idem (s : string) : lower (lower s) = lower s.
Proof.
  induction s as [|c r IH]; simpl.
  - reflexivity.
  - now rewrite lower_char_idem, IH.
Qed.

Lemma lstrip_lower (s : string) : lstrip (lower s) = lower (lstrip s).
Proof.
  induction s as [|c r IH]; simpl.
  - reflexivity.
  - rewrite is_space_lower_char. destruct (is_space c); [exact IH | reflexivity].
Qed.

Lemma rstrip_lower (s : string) : rstrip (lower s) = lower (rstrip s).
Proof.
  induction s as [|c r IH]; simpl.
  - reflexivity.
  - rewrite IH, is_space_lower_char.
    destruct (rstrip r); simpl; [destruct (is_space c)|]; reflexivity.
Qed.

Lemma strip_lower (s : string) : strip (lower s) = lower (strip s).
Proof. unfold strip. now rewrite lstrip_lower, rstrip_lower. Qed.

(** What [lstrip] leaves does not begin with white space. *)
Lemma lstrip_head (s : string) :
  match lstrip s with
  | EmptyString => True
  | String c _ => is_space c = false
  end.
Proof.
  induction s as [|c r IH]; simpl.
  - exact I.
  - destruct (is_space c) eqn:Hc; [exact IH | exact Hc].
Qed.

Lemma rstrip_idem (s : string) : rstrip (rstrip s) = rstrip s.
Proof.
  induction s as [|c r IH]; simpl.
  - reflexivity.
  - destruct (rstrip r) as [|c' r'] eqn:Hr.
    + destruct (is_space c) eqn:Hc; simpl; [reflexivity | now rewrite Hc].
    + change (rstrip (String c (String c' r'))) with
        (match rstrip (String c' r') with
         | EmptyString => if is_space c then EmptyString else String c EmptyString
         | r0 => String c r0
         end).
      now rewrite IH.
Qed.

Lemma lstrip_rstrip (s : string) :
  match s with EmptyString => True | String c _ => is_space c = false end ->
  lstrip (rstrip s) = rstrip s.
Proof.
  destruct s as [|c r]; simpl; intros Hc.
  - reflexivity.
  - destruct (rstrip r); rewrite ?Hc; simpl; rewrite ?Hc; reflexivity.
Qed.

Lemma strip_idem (s : string) : strip (strip s) = strip s.
Proof.
  unfold strip. rewrite (lstrip_rstrip (lstrip s) (lstrip_head s)).
  apply rstrip_idem.
Qed.

Lemma normalize_idem (s : string) : normalize (normalize s) = normalize s.
Proof.
  unfold normalize. now rewrite strip_lower, strip_idem, lower_idem.
Qed.

Lemma normalize_column_idem (col : list string) :
  map normalize (map normalize col) = map normalize col.
Proof.
  rewrite map_map. apply map_ext. intros s. apply normalize_idem.
Qed.

End PyStrFacts.

(** ** Normalization on every string *)

Module UnicodeFacts.
Import PyUnicode.

Lemma str_lstrip_head (s : str) :
  match lstrip s with
  | [] => True
  | c :: _ => is_space c = false
  end.
Proof.
  induction s as [|c r IH]; simpl; [exact I|].
  destruct (is_space c) eqn:Hc; [exact IH | exact Hc].
Qed.

Lemma str_rstrip_idem (s : str) : rstrip (rstrip s) = rstrip s.
Proof.
  induction s as [|c r IH]; simpl; [reflexivity|].
  destruct (rstrip r) as [|c' r'] eqn:Hr.
  - destruct (is_space c) eqn:Hc; simpl; [reflexivity | now rewrite Hc].
  - change (rstrip (c :: c' :: r')) with
      (match rstrip (c' :: r') with
       | [] => if is_space c then [] else [c]
       | r0 => c :: r0
       end).
    now rewrite IH.
Qed.

Lemma str_lstrip_rstrip (s : str) :
  match s with [] => True | c :: _ => is_space c = false end ->
  lstrip (rstrip s) = rstrip s.
Proof.
  destruct s as [|c r]; simpl; intros Hc; [reflexivity|].
  destruct (rstrip r); rewrite ?Hc; simpl; rewrite ?Hc; reflexivity.
Qed.

Lemma lstrip_strip (s : str) : lstrip (strip s) = strip s.
Proof. apply str_lstrip_rstrip, str_lstrip_head. Qed.

Lemma rstrip_strip (s : str) : rstrip (strip s) = strip s.
Proof. apply str_rstrip_idem. Qed.

(** A string that the two strips leave as it is. *)
Lemma strip_fixed (s : str) : lstrip s = s -> rstrip s = s -> strip s = s.
Proof. unfold strip. now intros -> ->. Qed.

Lemma lstrip_length (s : str) : (List.length (lstrip s) <= List.length s)%nat.
Proof.
  induction s as [|c r IH]; simpl; [lia|].
  destruct (is_space c); simpl; lia.
Qed.

Lemma lstrip_fixed_head (c : N) (r : str) :
  lstrip (c :: r) = c :: r -> is_space c = false.
Proof.
  simpl. destruct (is_space c); [|reflexivity].
  intros H. pose proof (lstrip_length r) as Hl. rewrite H in Hl. simpl in Hl. lia.
Qed.

Lemma rstrip_snoc (l : str) (d : N) :
  is_space d = false -> rstrip (l ++ [d]) = l ++ [d].
Proof.
  intros Hd. induction l as [|c r IH]; simpl.
  - now rewrite Hd.
  - rewrite IH. destruct (r ++ [d]) eqn:Hr; [|reflexivity].
    destruct r; discriminate.
Qed.

Lemma rstrip_fixed_last (s : str) :
  rstrip s = s -> s <> [] -> exists l d, s = l ++ [d] /\ is_space d = false.
Proof.
  induction s as [|c r IH]; [congruence|].
  simpl. intros H _. destruct (rstrip r) as [|c' r'] eqn:Hr.
  - destruct (is_space c) eqn:Hc; [discriminate|].
    inversion H; subst. now exists [], c.
  - inversion H as [Hr'].
    destruct (IH Hr') as (l & d & Hl & Hd); [rewrite <- Hr'; discriminate|].
    exists (c :: l), d. rewrite Hr', Hl. now split.
Qed.

Section Tables.
Variable T : tables.
Hypothesis HT : well_formed T.

Lemma lower_from_cons (before : list N) (c : N) (r : str) :
  lower_from T before (c :: r) = image T before c r ++ lower_from T (c :: before) r.
Proof. reflexivity. Qed.

Lemma image_not_nil (before : list N) (c : N) (after : list N) :
  image T before c after <> [].
Proof.
  unfold image. destruct (N.eqb_spec c capital_sigma) as [_ | Hc]; [discriminate|].
  now apply HT.
Qed.

Lemma image_no_space (before : list N) (c : N) (after : list N) (d : N) :
  is_space c = false -> In d (image T before c after) -> is_space d = false.
Proof.
  unfold image. intros Hc. destruct (N.eqb_spec c capital_sigma) as [_ | Hne].
  - intros [<- | []]. destruct (final_sigma T before after); reflexivity.
  - destruct HT as (_ & H2 & _). now apply H2.
Qed.

Lemma image_fixed (before : list N) (c : N) (after : list N) (d : N) :
  In d (image T before c after) -> d <> capital_sigma /\ to_lower_full T d = [d].
Proof.
  unfold image. destruct (N.eqb_spec c capital_sigma) as [_ | Hne].
  - destruct HT as (_ & _ & _ & H4 & H5).
    intros [<- | []]. destruct (final_sigma T before after);
      (split; [discriminate | assumption]).
  - destruct HT as (_ & _ & H3 & _). now apply H3.
Qed.

(** Lowering leaves a lowered string as it is. *)
Lemma lower_from_fixed (l : str) :
  Forall (fun d => d <> capital_sigma /\ to_lower_full T d = [d]) l ->
  forall before, lower_from T before l = l.
Proof.
  induction 1 as [|d r [Hd Hfix] _ IH]; intros before; [reflexivity|].
  rewrite lower_from_cons, IH. unfold image.
  destruct (N.eqb_spec d capital_sigma) as [He | _]; [contradiction|].
  now rewrite Hfix.
Qed.

Lemma lower_from_lowered (s : str) :
  forall before,
    Forall (fun d => d <> capital_sigma /\ to_lower_full T d = [d])
      (lower_from T before s).
Proof.
  induction s as [|c r IH]; intros before; [constructor|].
  rewrite lower_from_cons. apply Forall_app. split; [|apply IH].
  apply Forall_forall. intros d Hd. eapply image_fixed, Hd.
Qed.

Lemma str_lower_idem (s : str) : lower T (lower T s) = lower T s.
Proof. apply lower_from_fixed, lower_from_lowered. Qed.

(** Lowering keeps a string free of white space at both ends. *)
Lemma lstrip_lower_from (before : list N) (s : str) :
  lstrip s = s -> lstrip (lower_from T before s) = lower_from T before s.
Proof.
  destruct s as [|c r]; [reflexivity|]. intros H.
  apply lstrip_fixed_head in H. rewrite lower_from_cons.
  pose proof (image_not_nil before c r) as Hne.
  pose proof (image_no_space before c r) as Hsp.
  destruct (image T before c r) as [|d ds]; [congruence|].
  simpl. now rewrite (Hsp d H (or_introl eq_refl)).
Qed.

Lemma lower_from_snoc (l : str) (d : N) :
  forall before, exists pre b,
    lower_from T before (l ++ [d]) = pre ++ image T b d [].
Proof.
  induction l as [|c r IH]; intros before.
  - exists [], before. simpl. now rewrite app_nil_r.
  - destruct (IH (c :: before)) as (pre & b & H).
    exists (image T before c (r ++ [d]) ++ pre), b.
    simpl app. rewrite lower_from_cons, H. now rewrite app_assoc.
Qed.

Lemma rstrip_lower_from (before : list N) (s : str) :
  rstrip s = s -> rstrip (lower_from T before s) = lower_from T before s.
Proof.
  intros H. destruct s as [|c r]; [reflexivity|].
  destruct (rstrip_fixed_last (c :: r) H) as (l & d & Hl & Hd); [discriminate|].
  rewrite Hl. destruct (lower_from_snoc l d before) as (pre & b & ->).
  pose proof (image_not_nil b d []) as Hne.
  pose proof (image_no_space b d []) as Hsp.
  destruct (exists_last Hne) as (ds & e & He). rewrite He in *.
  rewrite app_assoc. apply rstrip_snoc.
  apply (Hsp e Hd). apply in_or_app. right. now left.
Qed.

Lemma str_normalize_idem (s : str) : normalize T (normalize T s) = normalize T s.
Proof.
  unfold normalize, lower.
  rewrite (strip_fixed (lower_from T [] (strip s))).
  - apply str_lower_idem.
  - apply lstrip_lower_from, lstrip_strip.
  - apply rstrip_lower_from, rstrip_strip.
Qed.

End Tables.

(** The sample tables are well formed. *)
Lemma sample_tables_well_formed : well_formed sample_tables.
Proof.
  unfold well_formed, sample_tables, capital_sigma, final_small_sigma, small_sigma.
  simpl. split; [|split; [|split; [|split; reflexivity]]].
  - intros c Hc. decide_cmp; discriminate.
  - intros c d Hc Hsp. unfold is_space in Hsp. revert Hsp.
    decide_cmp; intros Hsp; try discriminate Hsp;
      simpl; intros Hin;
      repeat (destruct Hin as [<- | Hin]; [|try contradiction]);
      unfold is_space; decide_cmp; first [reflexivity | exfalso; lia].
  - intros c d Hc. decide_cmp; intros Hin;
      repeat (destruct Hin as [<- | Hin]; [|try contradiction]);
      (split; [lia|]); decide_cmp; first [reflexivity | exfalso; lia].
Qed.

End UnicodeFacts.

(** ** The byte-string functions are the restriction to ASCII *)

Module AsciiFacts.

Lemma codes_cons (c : ascii) (r : string) :
  PyUnicode.codes (String c r) = N_of_ascii c :: PyUnicode.codes r.
Proof. reflexivity. Qed.

Lemma is_space_ascii (c : ascii) :
  (N_of_ascii c < 128)%N -> PyUnicode.is_space (N_of_ascii c) = PyStr.is_space c.
Proof.
  destruct c as [[] [] [] [] [] [] [] []]; intros H;
    first [reflexivity | vm_compute in H; discriminate].
Qed.

Lemma image_ascii (before : list N) (c : ascii) (after : list N) :
  (N_of_ascii c < 128)%N ->
  PyUnicode.image PyUnicode.sample_tables before (N_of_ascii c) after
  = [N_of_ascii (PyStr.lower_char c)].
Proof.
  destruct c as [[] [] [] [] [] [] [] []]; intros H;
    first [reflexivity | vm_compute in H; discriminate].
Qed.

Lemma ascii_only_cons (c : ascii) (s : string) :
  PyUnicode.ascii_only (String c s) <-> (N_of_ascii c < 128)%N /\ PyUnicode.ascii_only s.
Proof.
  unfold PyUnicode.ascii_only. simpl. split.
  - intros H. inversion H; subst. now split.
  - intros [Hc Hs]. now constructor.
Qed.

Lemma lstrip_ascii (s : string) :
  PyUnicode.ascii_only s ->
  PyUnicode.codes (PyStr.lstrip s) = PyUnicode.lstrip (PyUnicode.codes s)
  /\ PyUnicode.ascii_only (PyStr.lstrip s).
Proof.
  induction s as [|c r IH]; [now split|].
  intros H. pose proof H as Hall. apply ascii_only_cons in H. destruct H as [Hc Hr].
  simpl PyStr.lstrip. rewrite codes_cons. simpl PyUnicode.lstrip.
  rewrite (is_space_ascii c Hc).
  destruct (PyStr.is_space c); [now apply IH | now split].
Qed.

Lemma rstrip_ascii (s : string) :
  PyUnicode.ascii_only s ->
  PyUnicode.codes (PyStr.rstrip s) = PyUnicode.rstrip (PyUnicode.codes s)
  /\ PyUnicode.ascii_only (PyStr.rstrip s).
Proof.
  induction s as [|c r IH]; [now split|].
  intros H. apply ascii_only_cons in H. destruct H as [Hc Hr].
  destruct (IH Hr) as [Hcodes Hascii].
  simpl PyStr.rstrip. rewrite codes_cons. simpl PyUnicode.rstrip.
  rewrite <- Hcodes, (is_space_ascii c Hc).
  destruct (PyStr.rstrip r) as [|c' r'].
  - simpl. destruct (PyStr.is_space c); [now split|].
    split; [reflexivity|]. apply ascii_only_cons. now split.
  - split; [reflexivity|]. apply ascii_only_cons. now split.
Qed.

Lemma lower_ascii (s : string) :
  PyUnicode.ascii_only s ->
  forall before,
    PyUnicode.codes (PyStr.lower s)
    = PyUnicode.lower_from PyUnicode.sample_tables before (PyUnicode.codes s).
Proof.
  induction s as [|c r IH]; [reflexivity|].
  intros H before. apply ascii_only_cons in H. destruct H as [Hc Hr].
  simpl PyStr.lower. rewrite !codes_cons. simpl PyUnicode.lower_from.
  rewrite (image_ascii before c _ Hc). simpl. f_equal.
  now apply IH.
Qed.

(** On a string of ASCII characters, [PyStr.normalize] is
    [PyUnicode.normalize]. *)
Lemma normalize_ascii (s : string) :
  PyUnicode.ascii_only s ->
  PyUnicode.codes (PyStr.normalize s)
  = PyUnicode.normalize PyUnicode.sample_tables (PyUnicode.codes s).
Proof.
  intros H. unfold PyStr.normalize, PyStr.strip, PyUnicode.normalize, PyUnicode.strip.
  destruct (lstrip_ascii s H) as [Hl Hal].
  destruct (rstrip_ascii (PyStr.lstrip s) Hal) as [Hr Har].
  rewrite <- Hl, <- Hr. now apply lower_ascii.
Qed.

End AsciiFacts.

(** C10.  The normalization used for matching, [s.strip().lower()], is
    idempotent on every string: normalizing a normalized string gives it
    back, and so for a whole title column.  The statement is about
    [str.strip] and [str.lower] in full ([PyUnicode]), for every table of
    lower-case mappings that is [well_formed], as CPython's is; the
    functions of [PyStr], which the model of [recommend] computes with, are
    their restriction to ASCII ([AsciiFacts.normalize_ascii]). *)
Theorem normalize_idempotent (T : PyUnicode.tables) :
  PyUnicode.well_formed T ->
  (forall s : PyUnicode.str,
      PyUnicode.normalize T (PyUnicode.normalize T s) = PyUnicode.normalize T s) /\
  (forall col : list PyUnicode.str,
      map (PyUnicode.normalize T) (map (PyUnicode.normalize T) col)
      = map (PyUnicode.normalize T) col).
Proof.
  intros HT. split.
  - intros s. now apply UnicodeFacts.str_normalize_idem.
  - intros col. rewrite map_map. apply map_ext. intros s.
    now apply UnicodeFacts.str_normalize_idem.
Qed.

Lemma normalize_idempotent_witness :
  PyUnicode.normalize PyUnicode.sample_tables PyUnicode.odos
    = [0x3BF; 0x3B4; 0x3BF; 0x3C2; 0x20; 0xE9]%N /\
  PyUnicode.normalize PyUnicode.sample_tables
    (PyUnicode.normalize PyUnicode.sample_tables PyUnicode.odos)
    = PyUnicode.normalize PyUnicode.sample_tables PyUnicode.odos.
Proof.
  split; [reflexivity|].
  apply (normalize_idempotent PyUnicode.sample_tables).
  exact UnicodeFacts.sample_tables_well_formed.
Defined.

(** ** The descending stable sort *)

Module SortFacts.

Lemma score_lt_true (a b : Q) : score_lt a b = true <-> (a < b)%Q.
Proof.
  unfold score_lt. rewrite negb_true_iff. split.
  - intros H. apply Qnot_le_lt. intros Hle.
    apply Qle_bool_iff in Hle. congruence.
  - intros H. destruct (Qle_bool b a) eqn:Hb; [|reflexivity].
    apply Qle_bool_iff in Hb. exfalso. exact (Qlt_not_le _ _ H Hb).
Qed.

Lemma score_lt_false (a b : Q) : score_lt a b = false <-> (b <= a)%Q.
Proof.
  unfold score_lt. rewrite negb_false_iff. apply Qle_bool_iff.
Qed.

Lemma insert_desc_perm (x : nat * Q) (l : list (nat * Q)) :
  Permutation (insert_desc x l) (x :: l).
Proof.
  induction l as [|y r IH]; simpl.
  - apply Permutation_refl.
  - destruct (score_lt (snd x) (snd y)).
    + eapply perm_trans; [apply perm_skip, IH | apply perm_swap].
    + apply Permutation_refl.
Qed.

Lemma sorted_reverse_perm (l : list (nat * Q)) : Permutation (sorted_reverse l) l.
Proof.
  induction l as [|x r IH]; simpl.
  - apply perm_nil.
  - eapply perm_trans; [apply insert_desc_perm | apply perm_skip, IH].
Qed.

Lemma ranks_before_le (a b : nat * Q) : ranks_before a b -> (snd b <= snd a)%Q.
Proof.
  intros [H | [H _]].
  - apply Qlt_le_weak, H.
  - rewrite H. apply Qle_refl.
Qed.

(** Inserting an entry that comes from an earlier position than all of [l]. *)
Lemma insert_desc_sorted (x : nat * Q) (l : list (nat * Q)) :
  StronglySorted ranks_before l ->
  Forall (fun y => fst x < fst y) l ->
  StronglySorted ranks_before (insert_desc x l).
Proof.
  induction l as [|y r IH]; simpl; intros Hs Hx.
  - constructor; constructor.
  - inversion Hs as [|? ? Hr Hy]; subst.
    inversion Hx as [|? ? Hxy Hxr]; subst.
    destruct (score_lt (snd x) (snd y)) eqn:Hlt.
    + apply score_lt_true in Hlt.
      constructor; [now apply IH|].
      eapply Permutation_Forall; [apply Permutation_sym, insert_desc_perm|].
      constructor; [now left | exact Hy].
    + apply score_lt_false in Hlt.
      constructor; [exact Hs|].
      assert (Hall : Forall (fun z => (snd z <= snd x)%Q) (y :: r)).
      { constructor; [exact Hlt|].
        eapply Forall_impl; [|exact Hy].
        intros z Hz. eapply Qle_trans; [apply ranks_before_le, Hz | exact Hlt]. }
      clear - Hall Hx.
      induction Hall as [|z l' Hz _ IHl]; constructor.
      * inversion Hx; subst.
        destruct (Qlt_le_dec (snd z) (snd x)) as [Hl | Hg].
        -- now left.
        -- right. split; [apply Qle_antisym; assumption | assumption].
      * inversion Hx; subst. now apply IHl.
Qed.

Lemma sorted_reverse_sorted (l : list (nat * Q)) :
  StronglySorted (fun a b => fst a < fst b) l ->
  StronglySorted ranks_before (sorted_reverse l).
Proof.
  induction l as [|x r IH]; simpl; intros Hs.
  - constructor.
  - inversion Hs as [|? ? Hr Hx]; subst.
    apply insert_desc_sorted; [now apply IH|].
    eapply Permutation_Forall; [apply Permutation_sym, sorted_reverse_perm | exact Hx].
Qed.

Lemma combine_seq_In (row : list Q) (a i : nat) (s : Q) :
  In (i, s) (combine (seq a (List.length row)) row) <->
  a <= i /\ nth_error row (i - a) = Some s.
Proof.
  revert a. induction row as [|q r IH]; intros a; simpl.
  - split; [tauto|]. intros [_ H]. destruct (i - a); discriminate.
  - rewrite IH. split.
    + intros [H | [Hle H]].
      * inversion H; subst. rewrite Nat.sub_diag. simpl. split; [lia | reflexivity].
      * split; [lia|]. replace (i - a) with (S (i - S a)) by lia. exact H.
    + intros [Hle H]. destruct (Nat.eq_dec a i) as [-> | Hne].
      * rewrite Nat.sub_diag in H. simpl in H. left. congruence.
      * right. split; [lia|].
        replace (i - a) with (S (i - S a)) in H by lia. exact H.
Qed.

Lemma enumerate_In (row : list Q) (i : nat) (s : Q) :
  In (i, s) (enumerate row) <-> nth_error row i = Some s.
Proof.
  unfold enumerate. rewrite combine_seq_In, Nat.sub_0_r.
  split; [tauto | intros H; split; [lia | exact H]].
Qed.

Lemma enumerate_fst (row : list Q) : map fst (enumerate row) = seq 0 (List.length row).
Proof.
  unfold enumerate. generalize 0.
  induction row as [|q r IH]; intros a; simpl; [reflexivity | now rewrite IH].
Qed.

Lemma enumerate_length (row : list Q) : List.length (enumerate row) = List.length row.
Proof. rewrite <- (length_map fst), enumerate_fst. apply length_seq. Qed.

Lemma combine_seq_increasing (row : list Q) (a : nat) :
  StronglySorted (fun x y : nat * Q => fst x < fst y)
    (combine (seq a (List.length row)) row).
Proof.
  revert a. induction row as [|q r IH]; intros a; simpl; constructor.
  - apply IH.
  - apply Forall_forall. intros [i s] Hin.
    apply combine_seq_In in Hin. simpl. lia.
Qed.

Lemma sorted_enumerate (row : list Q) :
  StronglySorted ranks_before (sorted_reverse (enumerate row)).
Proof. apply sorted_reverse_sorted, combine_seq_increasing. Qed.

Lemma StronglySorted_skipn {A : Type} (R : A -> A -> Prop) (n : nat) (l : list A) :
  StronglySorted R l -> StronglySorted R (skipn n l).
Proof.
  revert l. induction n as [|n IH]; intros l Hs; simpl; [exact Hs|].
  destruct l as [|x r]; [constructor|].
  inversion Hs; subst. now apply IH.
Qed.

Lemma StronglySorted_firstn {A : Type} (R : A -> A -> Prop) (n : nat) (l : list A) :
  StronglySorted R l -> StronglySorted R (firstn n l).
Proof.
  revert l. induction n as [|n IH]; intros l Hs; simpl; [constructor|].
  destruct l as [|x r]; [constructor|].
  inversion Hs as [|? ? Hr Hx]; subst. constructor; [now apply IH|].
  apply Forall_forall. intros y Hy.
  rewrite Forall_forall in Hx. apply Hx.
  rewrite <- (firstn_skipn n r). apply in_or_app. now left.
Qed.

Lemma movies_list_incl (row : list Q) (p : nat * Q) :
  In p (movies_list row) -> In p (enumerate row).
Proof.
  unfold movies_list. intros H.
  apply (Permutation_in _ (sorted_reverse_perm (enumerate row))).
  rewrite <- (firstn_skipn 1 (sorted_reverse (enumerate row))).
  apply in_or_app. right.
  rewrite <- (firstn_skipn 20 (skipn 1 (sorted_reverse (enumerate row)))).
  apply in_or_app. now left.
Qed.

Lemma movies_list_sorted (row : list Q) : StronglySorted ranks_before (movies_list row).
Proof.
  unfold movies_list.
  apply StronglySorted_firstn, StronglySorted_skipn, sorted_enumerate.
Qed.

Lemma movies_list_length (row : list Q) :
  List.length (movies_list row) = Nat.min 20 (List.length row - 1).
Proof.
  unfold movies_list. rewrite length_firstn, length_skipn.
  rewrite (Permutation_length (sorted_reverse_perm (enumerate row))).
  now rewrite enumerate_length.
Qed.

Lemma movies_list_nth_error (row : list Q) (p : nat * Q) :
  In p (movies_list row) -> nth_error row (fst p) = Some (snd p).
Proof.
  intros H. apply movies_list_incl in H. destruct p as [i s].
  now apply enumerate_In.
Qed.

End SortFacts.

(** ** The loop and the lookup *)

Module PipelineFacts.

Section Loop.
Variables (E : env) (col : list string).

(** The loop with its three accumulators is the sequence of its turns. *)
Lemma enrich_slots (w : world) (ml : list (nat * Q)) :
  forall k rm rp tr,
    enrich E w col ml k rm rp tr =
    (xs <- slots E w col ml k ;;
     Ok (Triple (rm ++ map slot_title xs)
                (rp ++ map slot_poster xs)
                (tr ++ map slot_trailer xs))).
Proof.
  induction ml as [|i rest IH]; intros k rm rp tr; simpl.
  - now rewrite !app_nil_r.
  - unfold slot.
    destruct (at_index (nth_error col (fst i))) as [t|e]; simpl; [|reflexivity].
    destruct (fetch_movie_poster E (w k) t) as [p|e]; simpl; [|reflexivity].
    destruct (fetch_movie_trailer E (w (S k)) t) as [v|e]; simpl; [|reflexivity].
    rewrite IH.
    destruct (slots E w col rest (S (S k))) as [xs|e]; simpl; [|reflexivity].
    now rewrite <- !app_assoc.
Qed.

Lemma slots_length (w : world) (ml : list (nat * Q)) :
  forall k xs, slots E w col ml k = Ok xs -> List.length xs = List.length ml.
Proof.
  induction ml as [|i rest IH]; intros k xs; simpl.
  - intros H. inversion H. reflexivity.
  - destruct (slot E w col k i) as [x|e]; simpl; [|discriminate].
    destruct (slots E w col rest (S (S k))) as [ys|e] eqn:Hr; simpl; [|discriminate].
    intros H. inversion H; subst. simpl. f_equal. eapply IH, Hr.
Qed.

(** Turn [j] of a loop that ran to its end is the turn taken alone, after
    [2 * j] requests. *)
Lemma slots_nth (w : world) (ml : list (nat * Q)) :
  forall k xs j i,
    slots E w col ml k = Ok xs ->
    nth_error ml j = Some i ->
    exists x, nth_error xs j = Some x /\ slot E w col (k + 2 * j) i = Ok x.
Proof.
  induction ml as [|i0 rest IH]; intros k xs j i; simpl.
  - intros _ H. destruct j; discriminate.
  - destruct (slot E w col k i0) as [x|e] eqn:Hx; simpl; [|discriminate].
    destruct (slots E w col rest (S (S k))) as [ys|e] eqn:Hr; simpl; [|discriminate].
    intros H Hj. inversion H; subst. destruct j as [|j]; simpl in *.
    + inversion Hj; subst. exists x. split; [reflexivity|].
      now rewrite Nat.add_0_r.
    + destruct (IH _ _ _ _ Hr Hj) as (y & Hy & Hs). exists y. split; [exact Hy|].
      renumber (S (S k) + 2 * j). exact Hs.
Qed.

(** A loop that raises raises what one of its turns raises. *)
Lemma slots_raise (w : world) (ml : list (nat * Q)) :
  forall k e,
    slots E w col ml k = Raise e ->
    exists j i, nth_error ml j = Some i /\ slot E w col (k + 2 * j) i = Raise e.
Proof.
  induction ml as [|i0 rest IH]; intros k e; simpl.
  - discriminate.
  - destruct (slot E w col k i0) as [x|e0] eqn:Hx; simpl.
    + destruct (slots E w col rest (S (S k))) as [ys|e1] eqn:Hr; simpl; [discriminate|].
      intros H. inversion H; subst.
      destruct (IH _ _ Hr) as (j & i & Hj & Hs).
      exists (S j), i. split; [exact Hj|].
      renumber (S (S k) + 2 * j). exact Hs.
    + intros H. inversion H; subst. exists 0, i0. split; [reflexivity|].
      now rewrite Nat.add_0_r.
Qed.

(** A client reads its [get] at its own URL only. *)
Lemma fetch_movie_poster_ext (g g' : http_get) (t : string) :
  g' (poster_url E t) = g (poster_url E t) ->
  fetch_movie_poster E g' t = fetch_movie_poster E g t.
Proof. unfold fetch_movie_poster. now intros ->. Qed.

Lemma fetch_movie_trailer_ext (g g' : http_get) (t : string) :
  g' (trailer_url E t) = g (trailer_url E t) ->
  fetch_movie_trailer E g' t = fetch_movie_trailer E g t.
Proof. unfold fetch_movie_trailer. now intros ->. Qed.

Lemma slot_ext (w w' : world) (k : nat) (i : nat * Q) :
  (forall url, w' k url = w k url) ->
  (forall url, w' (S k) url = w (S k) url) ->
  slot E w' col k i = slot E w col k i.
Proof.
  intros H0 H1. unfold slot.
  destruct (at_index (nth_error col (fst i))) as [t|e]; simpl; [|reflexivity].
  rewrite (fetch_movie_poster_ext (w k) (w' k) t (H0 _)).
  destruct (fetch_movie_poster E (w k) t); simpl; [|reflexivity].
  now rewrite (fetch_movie_trailer_ext (w (S k)) (w' (S k)) t (H1 _)).
Qed.

(** The loop started after [k] requests reads the world from [k] on. *)
Lemma slots_ext (w w' : world) (ml : list (nat * Q)) :
  forall k,
    (forall n url, k <= n -> w' n url = w n url) ->
    slots E w' col ml k = slots E w col ml k.
Proof.
  induction ml as [|i rest IH]; intros k Hw; simpl; [reflexivity|].
  rewrite (slot_ext w w' k i) by (intros url; apply Hw; lia).
  rewrite (IH (S (S k))); [reflexivity|].
  intros n url Hn. apply Hw. lia.
Qed.

(** Two worlds that differ at the two requests of turn [j] only give loops
    that differ at slot [j] only. *)
Lemma slots_isolate (w w' : world) (ml : list (nat * Q)) :
  forall k xs j i x',
    slots E w col ml k = Ok xs ->
    (forall n url, n <> k + 2 * j -> n <> S (k + 2 * j) -> w' n url = w n url) ->
    nth_error ml j = Some i ->
    slot E w' col (k + 2 * j) i = Ok x' ->
    exists xs',
      slots E w' col ml k = Ok xs' /\
      nth_error xs' j = Some x' /\
      forall n, n <> j -> nth_error xs' n = nth_error xs n.
Proof.
  induction ml as [|i0 rest IH]; intros k xs j i x'; simpl.
  - intros _ _ H. destruct j; discriminate.
  - destruct (slot E w col k i0) as [x|e] eqn:Hx; simpl; [|discriminate].
    destruct (slots E w col rest (S (S k))) as [ys|e] eqn:Hr; simpl; [|discriminate].
    intros H Hw Hj Hs. inversion H; subst. destruct j as [|j]; simpl in Hj.
    + inversion Hj; subst. rewrite Nat.add_0_r in Hs. rewrite Hs. simpl.
      assert (Hrest : slots E w' col rest (S (S k)) = Ok ys).
      { rewrite <- Hr. apply slots_ext. intros n url Hn. apply Hw; lia. }
      rewrite Hrest. simpl. exists (x' :: ys). split; [reflexivity|].
      split; [reflexivity|]. intros n Hn. destruct n; [congruence | reflexivity].
    + assert (Hfirst : slot E w' col k i0 = Ok x).
      { rewrite <- Hx. apply slot_ext; intros url; apply Hw; lia. }
      rewrite Hfirst. simpl.
      destruct (IH (S (S k)) ys j i x' Hr) as (ys' & Hys & Hnj & Hoth).
      * intros n url H1 H2. apply Hw; lia.
      * exact Hj.
      * renumber (k + 2 * S j). exact Hs.
      * rewrite Hys. simpl. exists (x :: ys'). split; [reflexivity|].
        split; [exact Hnj|]. intros n Hn. destruct n; [reflexivity|].
        simpl. apply Hoth. congruence.
Qed.

End Loop.

Lemma first_index_nth (m : string) (col : list string) :
  forall idx, first_index m col = Some idx -> nth_error col idx = Some m.
Proof.
  induction col as [|t r IH]; intros idx; simpl; [discriminate|].
  destruct (String.eqb t m) eqn:Ht.
  - intros H. inversion H; subst. apply String.eqb_eq in Ht. now subst.
  - destruct (first_index m r) as [n|]; simpl; [|discriminate].
    intros H. inversion H; subst. simpl. now apply IH.
Qed.

Lemma first_index_In (m : string) (col : list string) :
  In m col -> exists idx, first_index m col = Some idx.
Proof.
  induction col as [|t r IH]; simpl; [tauto|].
  intros Hin. destruct (String.eqb t m) eqn:Ht; [now exists 0|].
  destruct Hin as [-> | Hin]; [rewrite String.eqb_refl in Ht; discriminate|].
  destruct (IH Hin) as (n & ->). now exists (S n).
Qed.

Lemma first_index_member (m : string) (col : list string) (idx : nat) :
  first_index m col = Some idx -> existsb (String.eqb m) col = true.
Proof.
  intros H. apply existsb_exists. exists m. split.
  - eapply nth_error_In, first_index_nth, H.
  - apply String.eqb_refl.
Qed.

Lemma member_In (m : string) (col : list string) :
  existsb (String.eqb m) col = true <-> In m col.
Proof.
  rewrite existsb_exists. split.
  - intros (x & Hin & Hx). apply String.eqb_eq in Hx. now subst.
  - intros Hin. exists m. split; [exact Hin | apply String.eqb_refl].
Qed.

(** [recommend] on a title it finds: the store with normalized titles, and
    the turns of the loop over [movies_list] of the title's row. *)
Lemma recommend_found (E : env) (st : store) (w : world) (m : string)
    (idx : nat) (row : list Q) :
  blank (Some m) = false ->
  first_index (PyStr.normalize m) (map PyStr.normalize (titles st)) = Some idx ->
  nth_error (similarity st) idx = Some row ->
  recommend E st w (Some m) =
  (normalize_titles st,
   xs <- slots E w (map PyStr.normalize (titles st)) (movies_list row) 0 ;;
   Ok (Triple (map slot_title xs) (map slot_poster xs) (map slot_trailer xs))).
Proof.
  intros Hb Hidx Hrow. unfold recommend. simpl in Hb. rewrite Hb.
  f_equal. simpl titles. simpl similarity.
  rewrite (first_index_member _ _ _ Hidx). simpl.
  rewrite Hidx. simpl. rewrite Hrow. simpl.
  now rewrite enrich_slots.
Qed.

(** [recommend] on anything else returns the pair of the early exits. *)
Lemma recommend_not_found (E : env) (st : store) (w : world) (movie : option string) :
  blank movie = true \/
  (exists m, movie = Some m /\
             ~ In (PyStr.normalize m) (map PyStr.normalize (titles st))) ->
  snd (recommend E st w movie) = Ok (Pair2 [] []).
Proof.
  intros [Hb | (m & -> & Hnot)].
  - destruct movie as [m|]; simpl in *; [rewrite Hb|]; reflexivity.
  - unfold recommend. destruct (String.eqb (PyStr.strip m) ""); [reflexivity|].
    simpl. destruct (existsb _ _) eqn:Hex; [|reflexivity].
    apply member_In in Hex. contradiction.
Qed.

(** A valid title has an index, and in a [square] store a row of the
    length of the catalog. *)
Lemma valid_row (st : store) (m : string) :
  square st -> valid st m ->
  exists idx row,
    first_index (PyStr.normalize m) (map PyStr.normalize (titles st)) = Some idx /\
    nth_error (similarity st) idx = Some row /\
    List.length row = List.length (titles st).
Proof.
  intros [Hlen Hrows] [_ Hin].
  destruct (first_index_In _ _ Hin) as (idx & Hidx).
  assert (Hlt : idx < List.length (similarity st)).
  { rewrite Hlen, <- (length_map PyStr.normalize).
    apply nth_error_Some. rewrite (first_index_nth _ _ _ Hidx). discriminate. }
  destruct (nth_error (similarity st) idx) as [row|] eqn:Hrow.
  - exists idx, row. split; [exact Hidx|]. split; [exact Hrow|].
    rewrite Forall_forall in Hrows. eapply Hrows, nth_error_In, Hrow.
  - apply nth_error_None in Hrow. lia.
Qed.

End PipelineFacts.

(** ** The entry dropped by the slice *)

Module RankFacts.
Import SortFacts.

Lemma nth_error_default (row : list Q) (i : nat) (s : Q) :
  nth_error row i = Some s -> nth i row 0%Q = s.
Proof. intros H. now apply nth_error_nth. Qed.

(** When the score at [idx] beats every earlier score and is not beaten by
    a later one, the sorted list begins with entry [idx], and no other
    entry has this index. *)
Lemma sorted_head_first_max (row : list Q) (idx : nat) :
  idx < List.length row ->
  (forall j, j < idx -> (nth j row 0 < nth idx row 0)%Q) ->
  (forall j, idx < j -> j < List.length row -> (nth j row 0 <= nth idx row 0)%Q) ->
  exists rest,
    sorted_reverse (enumerate row) = (idx, nth idx row 0%Q) :: rest /\
    ~ In idx (map fst rest).
Proof.
  intros Hidx Hbefore Hafter.
  pose proof (sorted_enumerate row) as Hsorted.
  pose proof (sorted_reverse_perm (enumerate row)) as Hperm.
  assert (Hself : In (idx, nth idx row 0%Q) (sorted_reverse (enumerate row))).
  { apply (Permutation_in _ (Permutation_sym Hperm)).
    apply enumerate_In. now apply nth_error_nth'. }
  assert (Hnodup : NoDup (map fst (sorted_reverse (enumerate row)))).
  { eapply Permutation_NoDup.
    - apply Permutation_sym, Permutation_map, Hperm.
    - rewrite enumerate_fst. apply seq_NoDup. }
  destruct (sorted_reverse (enumerate row)) as [|[i s] rest] eqn:Hs.
  - destruct Hself.
  - assert (Hi : nth_error row i = Some s).
    { apply enumerate_In. apply (Permutation_in _ Hperm). now left. }
    assert (Hlt : i < List.length row).
    { apply nth_error_Some. rewrite Hi. discriminate. }
    apply nth_error_default in Hi.
    assert (Hhead : (i, s) = (idx, nth idx row 0%Q)).
    { destruct Hself as [H | H]; [exact H|]. exfalso.
      inversion Hsorted as [|? ? _ Hall]; subst.
      rewrite Forall_forall in Hall. specialize (Hall _ H).
      destruct Hall as [Hgt | [Heq Hfst]]; simpl in *.
      - destruct (Nat.lt_trichotomy i idx) as [Hl | [-> | Hg]].
        + exact (Qlt_irrefl _ (Qlt_trans _ _ _ Hgt (Hbefore i Hl))).
        + exact (Qlt_irrefl _ Hgt).
        + exact (Qlt_not_le _ _ Hgt (Hafter i Hg Hlt)).
      - specialize (Hbefore i Hfst). rewrite Heq in Hbefore.
        exact (Qlt_irrefl _ Hbefore). }
    inversion Hhead; subst. exists rest. split; [reflexivity|].
    simpl in Hnodup. inversion Hnodup; assumption.
Qed.

(** The titles a completed loop collected are the column entries at the
    indices of its list. *)
Lemma slots_titles (E : env) (w : world) (col : list string) (ml : list (nat * Q)) :
  forall k xs,
    slots E w col ml k = Ok xs ->
    map Some (map slot_title xs) = map (nth_error col) (map fst ml).
Proof.
  induction ml as [|i rest IH]; intros k xs; simpl.
  - intros H. inversion H. reflexivity.
  - unfold slot.
    destruct (nth_error col (fst i)) as [t|] eqn:Ht; simpl; [|discriminate].
    destruct (fetch_movie_poster E (w k) t) as [p|e]; simpl; [|discriminate].
    destruct (fetch_movie_trailer E (w (S k)) t) as [v|e]; simpl; [|discriminate].
    destruct (slots E w col rest (S (S k))) as [ys|e] eqn:Hr; simpl; [|discriminate].
    intros H. inversion H; subst. simpl. f_equal. eapply IH, Hr.
Qed.

(** What a returned triple is made of. *)
Lemma recommend_triple (E : env) (st : store) (w : world) (m : string)
    (idx : nat) (row : list Q) (ts : list string) (ps : list (option json))
    (trs : list (option string)) :
  blank (Some m) = false ->
  first_index (PyStr.normalize m) (map PyStr.normalize (titles st)) = Some idx ->
  nth_error (similarity st) idx = Some row ->
  snd (recommend E st w (Some m)) = Ok (Triple ts ps trs) ->
  exists xs,
    slots E w (map PyStr.normalize (titles st)) (movies_list row) 0 = Ok xs /\
    ts = map slot_title xs /\ ps = map slot_poster xs /\ trs = map slot_trailer xs.
Proof.
  intros Hb Hidx Hrow. rewrite (PipelineFacts.recommend_found E st w m idx row Hb Hidx Hrow).
  simpl. destruct (slots _ _ _ _ _) as [xs|e]; simpl; [|discriminate].
  intros H. inversion H; subst. now exists xs.
Qed.

(** The head of the sorted row is the first maximum, and only it. *)
Lemma sorted_head_first_max_inv (row : list Q) (idx : nat) :
  idx < List.length row ->
  option_map fst (hd_error (sorted_reverse (enumerate row))) = Some idx ->
  first_maximum row idx.
Proof.
  intros Hidx Hhd.
  pose proof (sorted_enumerate row) as Hsorted.
  pose proof (sorted_reverse_perm (enumerate row)) as Hperm.
  destruct (sorted_reverse (enumerate row)) as [|[i s] rest]; [discriminate|].
  simpl in Hhd. inversion Hhd; subst i.
  assert (Hs : nth_error row idx = Some s).
  { apply enumerate_In, (Permutation_in _ Hperm). now left. }
  apply nth_error_default in Hs. subst s.
  assert (Hrank : forall j, j < List.length row -> j <> idx ->
                            ranks_before (idx, nth idx row 0%Q) (j, nth j row 0%Q)).
  { intros j Hj Hne.
    assert (Hin : In (j, nth j row 0%Q) ((idx, nth idx row 0%Q) :: rest)).
    { apply (Permutation_in _ (Permutation_sym Hperm)), enumerate_In.
      now apply nth_error_nth'. }
    destruct Hin as [Heq | Hin]; [inversion Heq; congruence|].
    inversion Hsorted as [|? ? _ Hall]; subst.
    rewrite Forall_forall in Hall. exact (Hall _ Hin). }
  split.
  - intros j Hj. destruct (Hrank j) as [Hlt | [_ Hfst]]; [lia | lia | exact Hlt|].
    simpl in Hfst. lia.
  - intros j Hj Hlen.
    apply (ranks_before_le (idx, nth idx row 0%Q) (j, nth j row 0%Q)).
    apply Hrank; lia.
Qed.

(** An entry that is not the first of the sorted row is in the rest. *)
Lemma sorted_rest_holds (row : list Q) (idx : nat) :
  idx < List.length row ->
  option_map fst (hd_error (sorted_reverse (enumerate row))) <> Some idx ->
  In idx (map fst (skipn 1 (sorted_reverse (enumerate row)))).
Proof.
  intros Hidx Hhd.
  assert (Hself : In (idx, nth idx row 0%Q) (sorted_reverse (enumerate row))).
  { apply (Permutation_in _ (Permutation_sym (sorted_reverse_perm (enumerate row)))).
    apply enumerate_In. now apply nth_error_nth'. }
  destruct (sorted_reverse (enumerate row)) as [|h rest]; [destruct Hself|].
  simpl in *. destruct Hself as [-> | Hin]; [now contradiction Hhd|].
  apply in_map_iff. now exists (idx, nth idx row 0%Q).
Qed.

Lemma movies_list_all (row : list Q) :
  List.length row <= 21 -> movies_list row = skipn 1 (sorted_reverse (enumerate row)).
Proof.
  intros Hlen. unfold movies_list. apply firstn_all2.
  rewrite length_skipn, (Permutation_length (sorted_reverse_perm (enumerate row))).
  rewrite enumerate_length. lia.
Qed.

End RankFacts.

(** C1 (behaviour of the code).  For an input that is [None], blank, or
    whose normal form is not a catalog title, [recommend] returns the pair
    of two empty lists of its early exits, not a triple as on the success
    path; [recommend_movies], which unpacks three values from it, raises
    [ValueError]. *)
Theorem recommend_no_match_returns_pair (E : env) (st : store) (w : world)
    (movie : option string) :
  blank movie = true \/
  (exists m, movie = Some m /\
             ~ In (PyStr.normalize m) (map PyStr.normalize (titles st))) ->
  snd (recommend E st w movie) = Ok (Pair2 [] []) /\
  snd (recommend_movies E st w movie) = Raise ValueError.
Proof.
  intros H. pose proof (PipelineFacts.recommend_not_found E st w movie H) as Hr.
  split; [exact Hr|].
  unfold recommend_movies. destruct (recommend E st w movie) as [st' r].
  simpl in *. now rewrite Hr.
Qed.

Lemma recommend_no_match_returns_pair_witness :
  snd (recommend test_env (scenario scenario_rest) world_404 (Some "Nonexistent Movie"%string))
    = Ok (Pair2 [] []) /\
  snd (recommend_movies test_env (scenario scenario_rest) world_404 (Some ""%string))
    = Raise ValueError.
Proof.
  split.
  - apply (recommend_no_match_returns_pair test_env (scenario scenario_rest) world_404
             (Some "Nonexistent Movie"%string)).
    right. exists "Nonexistent Movie"%string. split; [reflexivity|].
    simpl. intros [H | [H | [H | H]]]; try discriminate H. exact H.
  - apply (recommend_no_match_returns_pair test_env (scenario scenario_rest) world_404
             (Some ""%string)).
    left. reflexivity.
Defined.

(** C2 (counterexample).  In the catalog [twins] the two movies score 1
    against each other.  The stable sort keeps entry 0 first, the slice
    drops it, and the query for the second movie gets the second movie
    back. *)
Lemma twins_recommend_returns_query :
  first_index (PyStr.normalize "Beta") (map PyStr.normalize (titles twins)) = Some 1 /\
  nth_error (similarity twins) 1 = Some [1; 1]%Q /\
  sorted_reverse (enumerate [1; 1]%Q) = [(0, 1%Q); (1, 1%Q)] /\
  In 1 (map fst (movies_list [1; 1]%Q)) /\
  snd (recommend test_env twins world_404 (Some "Beta"%string))
    = Ok (Triple ["beta"%string] [None] [None]).
Proof.
  repeat split; try reflexivity. simpl. now left.
Qed.

(** C2 (amended).  For a title found at index [idx], the entry the slice
    drops is the queried movie exactly when its own score is the first
    maximum of its row: strictly greater than the score of every earlier
    entry and at least the score of every later one.  Then no entry of
    [movies_list] has index [idx].  Otherwise the dropped entry is another
    movie and the queried one stays in the sorted list behind it, which the
    slice returns whole when the catalog has at most 21 movies.  The titles
    of a returned triple are the catalog titles at the indices of
    [movies_list], in that order. *)
Theorem recommend_excludes_query_when_first_maximum (E : env) (st : store) (w : world)
    (m : string) (idx : nat) (row : list Q) :
  blank (Some m) = false ->
  first_index (PyStr.normalize m) (map PyStr.normalize (titles st)) = Some idx ->
  nth_error (similarity st) idx = Some row ->
  idx < List.length row ->
  (first_maximum row idx <->
   option_map fst (hd_error (sorted_reverse (enumerate row))) = Some idx) /\
  (first_maximum row idx -> ~ In idx (map fst (movies_list row))) /\
  (~ first_maximum row idx ->
   In idx (map fst (skipn 1 (sorted_reverse (enumerate row)))) /\
   (List.length row <= 21 -> In idx (map fst (movies_list row)))) /\
  forall ts ps trs,
    snd (recommend E st w (Some m)) = Ok (Triple ts ps trs) ->
    map Some ts =
    map (nth_error (map PyStr.normalize (titles st))) (map fst (movies_list row)).
Proof.
  intros Hb Hidx Hrow Hlt.
  assert (Hiff : first_maximum row idx <->
                 option_map fst (hd_error (sorted_reverse (enumerate row))) = Some idx).
  { split.
    - intros [Hbefore Hafter].
      destruct (RankFacts.sorted_head_first_max row idx Hlt Hbefore Hafter)
        as (rest & Hs & _).
      now rewrite Hs.
    - now apply RankFacts.sorted_head_first_max_inv. }
  split; [exact Hiff|]. split; [|split].
  - intros [Hbefore Hafter].
    destruct (RankFacts.sorted_head_first_max row idx Hlt Hbefore Hafter)
      as (rest & Hs & Hnot).
    unfold movies_list. rewrite Hs. simpl skipn. intros Hin. apply Hnot.
    rewrite <- (firstn_skipn 20 rest), map_app. apply in_or_app. now left.
  - intros Hnot.
    assert (Hrest : In idx (map fst (skipn 1 (sorted_reverse (enumerate row))))).
    { apply RankFacts.sorted_rest_holds; [exact Hlt|].
      intros Hhd. apply Hnot. now apply Hiff. }
    split; [exact Hrest|].
    intros Hlen. now rewrite (RankFacts.movies_list_all row Hlen).
  - intros ts ps trs Hret.
    destruct (RankFacts.recommend_triple E st w m idx row ts ps trs Hb Hidx Hrow Hret)
      as (xs & Hxs & -> & _).
    eapply RankFacts.slots_titles, Hxs.
Qed.

Lemma recommend_excludes_query_when_first_maximum_witness :
  (option_map fst (hd_error (sorted_reverse (enumerate [3 # 10; 5 # 10; 1]%Q))) = Some 2 /\
   ~ In 2 (map fst (movies_list [3 # 10; 5 # 10; 1]%Q))) /\
  In 1 (map fst (movies_list [1; 1]%Q)).
Proof.
  split.
  - destruct (recommend_excludes_query_when_first_maximum
                test_env (scenario scenario_rest) world_404 "Tenet"%string
                2 [3 # 10; 5 # 10; 1]%Q) as (Hiff & Hout & _).
    + reflexivity.
    + reflexivity.
    + reflexivity.
    + simpl. lia.
    + assert (Hmax : first_maximum [3 # 10; 5 # 10; 1]%Q 2).
      { split.
        - intros j Hj. destruct j as [|[|j]]; [| |lia]; simpl; unfold Qlt; simpl; lia.
        - intros j Hj Hlen. simpl in Hlen. lia. }
      split; [now apply Hiff | now apply Hout].
  - destruct (recommend_excludes_query_when_first_maximum
                test_env twins world_404 "Beta"%string 1 [1; 1]%Q)
      as (_ & _ & Hin & _).
    + reflexivity.
    + reflexivity.
    + reflexivity.
    + simpl. lia.
    + apply Hin.
      * intros [Hbefore _]. specialize (Hbefore 0 Nat.lt_0_1). simpl in Hbefore.
        exact (Qlt_irrefl _ Hbefore).
      * simpl. lia.
Defined.

(** C3 (counterexample).  With the scenario's catalog and row, and
    providers that answer 404, [recommend("  INCEPTION  ")] returns the
    titles in lower case, not as the catalog was loaded. *)
Lemma scenario_titles_are_lowercase :
  snd (recommend test_env (scenario scenario_rest) world_404 (Some "  INCEPTION  "%string))
    = Ok (Triple ["interstellar"; "tenet"]%string [None; None] [None; None]) /\
  ["interstellar"; "tenet"]%string <> ["Interstellar"; "Tenet"]%string.
Proof.
  split; [reflexivity | discriminate].
Qed.

(** C3 (amended).  For the catalog ["Inception", "Interstellar", "Tenet"]
    with similarity row [1.0, 0.8, 0.3] for "Inception", whatever the other
    rows, the environment and the providers, [recommend("  INCEPTION  ")]
    leaves the catalog with normalized titles and fetches poster and trailer
    for "interstellar", then for "tenet"; when none of the four fetches
    raises it returns the title sequence ["interstellar", "tenet"], in that
    order. *)
Theorem scenario_recommend_inception (E : env) (w : world) (rest : list (list Q)) :
  recommend E (scenario rest) w (Some "  INCEPTION  "%string) =
  (normalize_titles (scenario rest),
   p1 <- fetch_movie_poster E (w 0) "interstellar" ;;
   v1 <- fetch_movie_trailer E (w 1) "interstellar" ;;
   p2 <- fetch_movie_poster E (w 2) "tenet" ;;
   v2 <- fetch_movie_trailer E (w 3) "tenet" ;;
   Ok (Triple ["interstellar"; "tenet"]%string [p1; p2] [v1; v2])).
Proof.
  reflexivity.
Qed.

(** C4 (counterexample).  A call of [recommend] with a title that is not
    blank rewrites the title column: the home page lists other titles after
    the call than before. *)
Lemma recommend_rewrites_titles :
  home (scenario scenario_rest) = ["Inception"; "Interstellar"; "Tenet"]%string /\
  home (fst (recommend test_env (scenario scenario_rest) world_404
               (Some "Nonexistent Movie"%string)))
    = ["inception"; "interstellar"; "tenet"]%string /\
  fst (recommend test_env (scenario scenario_rest) world_404
         (Some "Nonexistent Movie"%string)) <> scenario scenario_rest.
Proof.
  repeat split; try reflexivity. discriminate.
Qed.

(** C4 (amended).  A call of [recommend] with [None] or a blank title
    leaves the store as it is; any other call, found or not, replaces every
    stored title by its normal form and changes nothing else: the
    similarity matrix and the number of movies stay.  Once the titles are
    normalized, no call changes the store. *)
Theorem recommend_store_effect (E : env) (st : store) (w : world) (movie : option string) :
  fst (recommend E st w movie) = (if blank movie then st else normalize_titles st) /\
  similarity (fst (recommend E st w movie)) = similarity st /\
  List.length (titles (fst (recommend E st w movie))) = List.length (titles st) /\
  home (fst (recommend E st w movie)) =
    (if blank movie then titles st else map PyStr.normalize (titles st)) /\
  forall (w' : world) (movie' : option string),
    fst (recommend E (normalize_titles st) w' movie') = normalize_titles st.
Proof.
  assert (Hfst : forall s v mv,
             fst (recommend E s v mv) = if blank mv then s else normalize_titles s).
  { intros s v [m'|]; simpl; [|reflexivity].
    destruct (String.eqb (PyStr.strip m') ""); reflexivity. }
  rewrite Hfst. repeat split.
  - destruct (blank movie); reflexivity.
  - destruct (blank movie); simpl; [reflexivity | apply length_map].
  - unfold home. destruct (blank movie); reflexivity.
  - intros w' movie'. rewrite Hfst. destruct (blank movie'); [reflexivity|].
    unfold normalize_titles. simpl.
    now rewrite PyStrFacts.normalize_column_idem.
Qed.

(** C5 (counterexample).  The scenario's store keeps its invariant and
    "Inception" is a valid title, yet with providers that fail on the
    network [recommend] returns no sequence: it raises. *)
Lemma recommend_raises_with_client :
  square (scenario scenario_rest) /\
  valid (scenario scenario_rest) "Inception" /\
  snd (recommend test_env (scenario scenario_rest) world_down (Some "Inception"%string))
    = Raise ConnectionError.
Proof.
  split; [|split].
  - split; [reflexivity|]. repeat constructor.
  - split; [reflexivity|]. simpl. now left.
  - reflexivity.
Qed.

(** C5 (amended).  In a store that keeps its invariant ([square]), for
    every valid title: when no enrichment client raises, [recommend]
    returns a triple whose title sequence has length
    [min(20, catalogSize - 1)], fewer than 20 in a catalog of fewer than 21
    movies, without padding; the slice and the indexing never raise.  The
    only other outcome is that [recommend] raises the exception an
    enrichment client raised. *)
Theorem recommend_length (E : env) (st : store) (w : world) (m : string) :
  square st ->
  valid st m ->
  ((forall k t, exists p, fetch_movie_poster E (w k) t = Ok p) ->
   (forall k t, exists v, fetch_movie_trailer E (w k) t = Ok v) ->
   exists ts ps trs,
     snd (recommend E st w (Some m)) = Ok (Triple ts ps trs) /\
     List.length ts = Nat.min 20 (List.length (titles st) - 1)) /\
  ((exists ts ps trs,
       snd (recommend E st w (Some m)) = Ok (Triple ts ps trs) /\
       List.length ts = Nat.min 20 (List.length (titles st) - 1)) \/
   (exists e k t,
       snd (recommend E st w (Some m)) = Raise e /\
       (fetch_movie_poster E (w k) t = Raise e \/
        fetch_movie_trailer E (w k) t = Raise e))).
Proof.
  intros Hsq Hvalid.
  assert (Hcases :
    (exists ts ps trs,
        snd (recommend E st w (Some m)) = Ok (Triple ts ps trs) /\
        List.length ts = Nat.min 20 (List.length (titles st) - 1)) \/
    (exists e k t,
        snd (recommend E st w (Some m)) = Raise e /\
        (fetch_movie_poster E (w k) t = Raise e \/
         fetch_movie_trailer E (w k) t = Raise e))).
  { destruct (PipelineFacts.valid_row st m Hsq Hvalid) as (idx & row & Hidx & Hrow & Hlen).
    destruct Hvalid as [Hb _].
    rewrite (PipelineFacts.recommend_found E st w m idx row Hb Hidx Hrow). simpl.
    destruct (slots E w (map PyStr.normalize (titles st)) (movies_list row) 0)
      as [xs|e] eqn:Hs; simpl.
    - left. exists (map slot_title xs), (map slot_poster xs), (map slot_trailer xs).
      split; [reflexivity|].
      rewrite length_map, (PipelineFacts.slots_length _ _ _ _ _ _ Hs).
      now rewrite SortFacts.movies_list_length, Hlen.
    - right. destruct (PipelineFacts.slots_raise _ _ _ _ _ _ Hs) as (j & i & Hj & Hslot).
      assert (Hin : fst i < List.length (map PyStr.normalize (titles st))).
      { rewrite length_map, <- Hlen. apply nth_error_Some.
        rewrite (SortFacts.movies_list_nth_error row i (nth_error_In _ _ Hj)).
        discriminate. }
      remember (0 + 2 * j) as k eqn:Hk. clear Hk.
      unfold slot in Hslot.
      destruct (nth_error (map PyStr.normalize (titles st)) (fst i)) as [t|] eqn:Ht.
      + simpl in Hslot.
        destruct (fetch_movie_poster E (w k) t) as [p|e1] eqn:Hp; simpl in Hslot.
        * destruct (fetch_movie_trailer E (w (S k)) t) as [v|e2] eqn:Hv;
            simpl in Hslot; [discriminate|].
          inversion Hslot; subst. exists e, (S k), t.
          split; [reflexivity | now right].
        * inversion Hslot; subst. exists e, k, t.
          split; [reflexivity | now left].
      + apply nth_error_None in Ht. lia. }
  split; [|exact Hcases].
  intros Hposter Htrailer.
  destruct Hcases as [H | (e & k & t & _ & [Hp | Hv])]; [exact H| |].
  - destruct (Hposter k t) as (p & Hok). congruence.
  - destruct (Htrailer k t) as (v & Hok). congruence.
Qed.

Lemma recommend_length_witness :
  exists ts ps trs,
    snd (recommend test_env (scenario scenario_rest) world_ok (Some "tenet "%string))
      = Ok (Triple ts ps trs) /\
    List.length ts = Nat.min 20 (3 - 1).
Proof.
  destruct (recommend_length test_env (scenario scenario_rest) world_ok "tenet "%string)
    as [H _].
  - split; [reflexivity|]. repeat constructor.
  - split; [reflexivity|]. simpl. right. right. left. reflexivity.
  - apply H.
    + intros k t. eexists. reflexivity.
    + intros k t. eexists. reflexivity.
Defined.

(** C6.  For every title [recommend] finds, the list it walks is sorted by
    descending score, and entries with the same score stay in catalog index
    order: of any two entries the earlier one has a strictly greater score,
    or the same score and a smaller index ([ranks_before]).  Every entry
    carries the score of its index in the title's row, and the titles of a
    returned triple are the catalog titles at these indices, in this order. *)
Theorem recommend_sorted_descending (E : env) (st : store) (w : world) (m : string)
    (idx : nat) (row : list Q) :
  blank (Some m) = false ->
  first_index (PyStr.normalize m) (map PyStr.normalize (titles st)) = Some idx ->
  nth_error (similarity st) idx = Some row ->
  StronglySorted ranks_before (movies_list row) /\
  Forall (fun p => nth_error row (fst p) = Some (snd p)) (movies_list row) /\
  forall ts ps trs,
    snd (recommend E st w (Some m)) = Ok (Triple ts ps trs) ->
    map Some ts =
    map (nth_error (map PyStr.normalize (titles st))) (map fst (movies_list row)).
Proof.
  intros Hb Hidx Hrow. split; [apply SortFacts.movies_list_sorted|]. split.
  - apply Forall_forall. intros p Hp. now apply SortFacts.movies_list_nth_error.
  - intros ts ps trs Hret.
    destruct (RankFacts.recommend_triple E st w m idx row ts ps trs Hb Hidx Hrow Hret)
      as (xs & Hxs & -> & _).
    eapply RankFacts.slots_titles, Hxs.
Qed.

Lemma recommend_sorted_descending_witness :
  StronglySorted ranks_before (movies_list [3 # 10; 5 # 10; 1]%Q) /\
  map Some ["interstellar"; "inception"]%string =
  map (nth_error (map PyStr.normalize (titles (scenario scenario_rest))))
      (map fst (movies_list [3 # 10; 5 # 10; 1]%Q)).
Proof.
  destruct (recommend_sorted_descending test_env (scenario scenario_rest) world_ok
              "tenet "%string 2 [3 # 10; 5 # 10; 1]%Q) as (H1 & _ & H3).
  - reflexivity.
  - reflexivity.
  - reflexivity.
  - split; [exact H1|].
    apply (H3 ["interstellar"; "inception"]%string
              [Some (JStr "http://img.example/p.jpg"); Some (JStr "http://img.example/p.jpg")]
              [Some "https://www.youtube.com/watch?v=abc123"%string;
               Some "https://www.youtube.com/watch?v=abc123"%string]).
    reflexivity.
Defined.

(** ** Enrichment *)

Module ClientFacts.

Lemma poster_status (E : env) (get : http_get) (t : string) (r : response) :
  get (poster_url E t) = Ok r -> status_code r <> 200%Z ->
  fetch_movie_poster E get t = Ok None.
Proof.
  intros Hg Hs. unfold fetch_movie_poster. rewrite Hg. simpl.
  apply Z.eqb_neq in Hs. now rewrite Hs.
Qed.

Lemma trailer_status (E : env) (get : http_get) (t : string) (r : response) :
  get (trailer_url E t) = Ok r -> status_code r <> 200%Z ->
  fetch_movie_trailer E get t = Ok None.
Proof.
  intros Hg Hs. unfold fetch_movie_trailer. rewrite Hg. simpl.
  apply Z.eqb_neq in Hs. now rewrite Hs.
Qed.

Lemma poster_absent (E : env) (get : http_get) (t : string) (r : response) :
  get (poster_url E t) = Ok r -> no_poster r ->
  fetch_movie_poster E get t = Ok None.
Proof.
  intros Hg (kv & Hb & Hk). unfold fetch_movie_poster. rewrite Hg. simpl.
  destruct (status_code r =? 200)%Z; [|reflexivity].
  unfold response_json. rewrite Hb. simpl.
  destruct Hk as [-> | ->]; reflexivity.
Qed.

Lemma trailer_absent (E : env) (get : http_get) (t : string) (r : response) :
  get (trailer_url E t) = Ok r -> no_items r ->
  fetch_movie_trailer E get t = Ok None.
Proof.
  intros Hg (kv & Hb & Hk). unfold fetch_movie_trailer. rewrite Hg. simpl.
  destruct (status_code r =? 200)%Z; [|reflexivity].
  unfold response_json. rewrite Hb. simpl.
  destruct Hk as [-> | (items & -> & Hlen)]; [reflexivity|].
  simpl. rewrite Hlen. reflexivity.
Qed.

End ClientFacts.

(** C7 (counterexample).  On a network failure both clients raise, and on a
    200 answer whose body is not JSON both raise; the trailer client raises
    too on a search result without a video identifier.  None of these
    returns [None]. *)
Lemma clients_raise :
  fetch_movie_poster test_env (world_down 0) "Tenet" = Raise ConnectionError /\
  fetch_movie_trailer test_env (world_down 0) "Tenet" = Raise ConnectionError /\
  fetch_movie_poster test_env (fun _ => Ok malformed) "Tenet" = Raise JSONDecodeError /\
  fetch_movie_trailer test_env (fun _ => Ok malformed) "Tenet" = Raise JSONDecodeError /\
  fetch_movie_trailer test_env (fun _ => Ok no_video_id) "Tenet" = Raise KeyError /\
  fetch_movie_poster test_env (world_down 0) "Tenet" <> Ok None /\
  fetch_movie_trailer test_env (world_down 0) "Tenet" <> Ok None.
Proof.
  repeat split; try reflexivity; discriminate.
Qed.

(** C7 (amended).  For every title, each enrichment client returns [None]
    when its provider answers with a status other than 200, or with a JSON
    object in which the poster field is missing or is the placeholder "N/A"
    (poster client), or in which [items] is missing or empty (trailer
    client).  A network failure is raised to the caller as it is, and a 200
    answer whose body is not JSON raises [JSONDecodeError]. *)
Theorem clients_absorb_answered_failures (E : env) (get : http_get) (t : string) :
  (forall r, get (poster_url E t) = Ok r ->
             status_code r <> 200%Z \/ no_poster r ->
             fetch_movie_poster E get t = Ok None) /\
  (forall r, get (trailer_url E t) = Ok r ->
             status_code r <> 200%Z \/ no_items r ->
             fetch_movie_trailer E get t = Ok None) /\
  (forall e, get (poster_url E t) = Raise e -> fetch_movie_poster E get t = Raise e) /\
  (forall e, get (trailer_url E t) = Raise e -> fetch_movie_trailer E get t = Raise e) /\
  (forall r, get (poster_url E t) = Ok r -> status_code r = 200%Z -> body r = None ->
             fetch_movie_poster E get t = Raise JSONDecodeError) /\
  (forall r, get (trailer_url E t) = Ok r -> status_code r = 200%Z -> body r = None ->
             fetch_movie_trailer E get t = Raise JSONDecodeError).
Proof.
  repeat split.
  - intros r Hg [Hs | Hn];
      [eapply ClientFacts.poster_status | eapply ClientFacts.poster_absent]; eassumption.
  - intros r Hg [Hs | Hn];
      [eapply ClientFacts.trailer_status | eapply ClientFacts.trailer_absent]; eassumption.
  - intros e Hg. unfold fetch_movie_poster. now rewrite Hg.
  - intros e Hg. unfold fetch_movie_trailer. now rewrite Hg.
  - intros r Hg Hs Hb. unfold fetch_movie_poster, response_json.
    rewrite Hg. simpl. now rewrite Hs, Hb.
  - intros r Hg Hs Hb. unfold fetch_movie_trailer, response_json.
    rewrite Hg. simpl. now rewrite Hs, Hb.
Qed.

Lemma clients_absorb_answered_failures_witness :
  fetch_movie_poster test_env (world_404 0) "Tenet" = Ok None /\
  fetch_movie_trailer test_env (world_404 0) "Tenet" = Ok None /\
  fetch_movie_poster test_env (fun _ => Ok placeholder) "Tenet" = Ok None /\
  fetch_movie_trailer test_env (fun _ => Ok placeholder) "Tenet" = Ok None /\
  fetch_movie_poster test_env (world_down 0) "Tenet" = Raise ConnectionError /\
  fetch_movie_trailer test_env (world_down 0) "Tenet" = Raise ConnectionError /\
  fetch_movie_poster test_env (fun _ => Ok malformed) "Tenet" = Raise JSONDecodeError /\
  fetch_movie_trailer test_env (fun _ => Ok malformed) "Tenet" = Raise JSONDecodeError.
Proof.
  destruct (clients_absorb_answered_failures test_env (world_404 0) "Tenet")
    as (P404 & T404 & _).
  destruct (clients_absorb_answered_failures test_env (fun _ => Ok placeholder) "Tenet")
    as (Pph & Tph & _).
  destruct (clients_absorb_answered_failures test_env (world_down 0) "Tenet")
    as (_ & _ & Pdown & Tdown & _).
  destruct (clients_absorb_answered_failures test_env (fun _ => Ok malformed) "Tenet")
    as (_ & _ & _ & _ & Pmal & Tmal).
  split; [|split; [|split; [|split; [|split; [|split; [|split]]]]]].
  - apply (P404 not_found); [reflexivity | left; discriminate].
  - apply (T404 not_found); [reflexivity | left; discriminate].
  - apply (Pph placeholder); [reflexivity|]. right.
    exists [("Poster"%string, JStr "N/A"); ("items"%string, JArr [])].
    split; [reflexivity | right; reflexivity].
  - apply (Tph placeholder); [reflexivity|]. right.
    exists [("Poster"%string, JStr "N/A"); ("items"%string, JArr [])].
    split; [reflexivity|]. right. exists (JArr []). split; reflexivity.
  - apply Pdown. reflexivity.
  - apply Tdown. reflexivity.
  - apply (Pmal malformed); reflexivity.
  - apply (Tmal malformed); reflexivity.
Defined.

Module AlignFacts.

(** In a loop that ran to its end, slot [j] holds what the two clients
    returned for the title of slot [j], at requests [2j] and [2j+1]. *)
Lemma slots_aligned (E : env) (w : world) (col : list string) (ml : list (nat * Q)) :
  forall k xs j x,
    slots E w col ml k = Ok xs ->
    nth_error xs j = Some x ->
    fetch_movie_poster E (w (k + 2 * j)) (slot_title x) = Ok (slot_poster x) /\
    fetch_movie_trailer E (w (k + 2 * j + 1)) (slot_title x) = Ok (slot_trailer x).
Proof.
  induction ml as [|i rest IH]; intros k xs j x; simpl.
  - intros H. inversion H; subst. destruct j; discriminate.
  - unfold slot.
    destruct (at_index (nth_error col (fst i))) as [t|e]; simpl; [|discriminate].
    destruct (fetch_movie_poster E (w k) t) as [p|e] eqn:Hp; simpl; [|discriminate].
    destruct (fetch_movie_trailer E (w (S k)) t) as [v|e] eqn:Hv; simpl; [|discriminate].
    destruct (slots E w col rest (S (S k))) as [ys|e] eqn:Hr; simpl; [|discriminate].
    intros H Hj. inversion H; subst. destruct j as [|j]; simpl in Hj.
    + inversion Hj; subst. unfold slot_title, slot_poster, slot_trailer. simpl fst. simpl snd.
      split; [poster_request k | trailer_request (S k)]; assumption.
    + destruct (IH _ _ _ _ Hr Hj) as [H1 H2].
      split; [poster_request (S (S k) + 2 * j) | trailer_request (S (S k) + 2 * j + 1)];
        assumption.
Qed.

(** A triple is returned on the path of a found title only. *)
Lemma recommend_triple_inv (E : env) (st : store) (w : world) (movie : option string)
    (ts : list string) (ps : list (option json)) (trs : list (option string)) :
  snd (recommend E st w movie) = Ok (Triple ts ps trs) ->
  exists m idx row,
    movie = Some m /\ blank (Some m) = false /\
    first_index (PyStr.normalize m) (map PyStr.normalize (titles st)) = Some idx /\
    nth_error (similarity st) idx = Some row.
Proof.
  destruct movie as [m|]; simpl; [|discriminate].
  destruct (String.eqb (PyStr.strip m) "") eqn:Hb; simpl; [discriminate|].
  destruct (existsb _ _); simpl; [|discriminate].
  destruct (first_index _ _) as [idx|] eqn:Hidx; simpl; [|discriminate].
  destruct (nth_error (similarity st) idx) as [row|] eqn:Hrow; simpl; [|discriminate].
  intros _. exists m, idx, row. repeat split; assumption.
Qed.

Lemma map_Some_inj {A : Type} (l l' : list A) : map Some l = map Some l' -> l = l'.
Proof.
  revert l'. induction l as [|a r IH]; intros [|a' r']; simpl; try discriminate.
  - reflexivity.
  - intros H. inversion H; subst. f_equal. now apply IH.
Qed.

Lemma nth_error_map_inv {A B : Type} (f : A -> B) (l : list A) (n : nat) (b : B) :
  nth_error (map f l) n = Some b -> exists a, nth_error l n = Some a /\ f a = b.
Proof.
  rewrite nth_error_map. destruct (nth_error l n) as [a|]; simpl; [|discriminate].
  intros H. inversion H. now exists a.
Qed.

End AlignFacts.

(** C9.  Positional alignment: in every triple [recommend] returns, the
    three sequences have the same length, and at every index the poster and
    the trailer are what the two clients returned for the title at that
    index (the requests number [2i] and [2i+1] of the call). *)
Theorem recommend_positional_alignment (E : env) (st : store) (w : world)
    (movie : option string) (ts : list string) (ps : list (option json))
    (trs : list (option string)) :
  snd (recommend E st w movie) = Ok (Triple ts ps trs) ->
  List.length ps = List.length ts /\
  List.length trs = List.length ts /\
  forall i t,
    nth_error ts i = Some t ->
    exists p v,
      nth_error ps i = Some p /\ nth_error trs i = Some v /\
      fetch_movie_poster E (w (2 * i)) t = Ok p /\
      fetch_movie_trailer E (w (2 * i + 1)) t = Ok v.
Proof.
  intros Hret.
  destruct (AlignFacts.recommend_triple_inv E st w movie ts ps trs Hret)
    as (m & idx & row & -> & Hb & Hidx & Hrow).
  destruct (RankFacts.recommend_triple E st w m idx row ts ps trs Hb Hidx Hrow Hret)
    as (xs & Hxs & -> & -> & ->).
  rewrite !length_map. repeat split.
  intros i t Hi.
  destruct (AlignFacts.nth_error_map_inv _ _ _ _ Hi) as (x & Hx & <-).
  exists (slot_poster x), (slot_trailer x).
  rewrite !nth_error_map, Hx. simpl.
  split; [reflexivity|]. split; [reflexivity|].
  exact (AlignFacts.slots_aligned E w _ _ 0 xs i x Hxs Hx).
Qed.

Lemma recommend_positional_alignment_witness :
  List.length [Some (JStr "http://img.example/p.jpg"); None]
    = List.length ["interstellar"; "tenet"]%string /\
  exists p v,
    nth_error [Some (JStr "http://img.example/p.jpg"); None] 1 = Some p /\
    nth_error [Some "https://www.youtube.com/watch?v=abc123"%string;
               Some "https://www.youtube.com/watch?v=abc123"%string] 1 = Some v /\
    fetch_movie_poster test_env (override world_ok 2 (Ok not_found) (2 * 1)) "tenet" = Ok p /\
    fetch_movie_trailer test_env (override world_ok 2 (Ok not_found) (2 * 1 + 1)) "tenet"
      = Ok v.
Proof.
  destruct (recommend_positional_alignment test_env (scenario scenario_rest)
              (override world_ok 2 (Ok not_found)) (Some "Inception"%string)
              ["interstellar"; "tenet"]%string
              [Some (JStr "http://img.example/p.jpg"); None]
              [Some "https://www.youtube.com/watch?v=abc123"%string;
               Some "https://www.youtube.com/watch?v=abc123"%string])
    as (Hlen & _ & Hat).
  - reflexivity.
  - split; [exact Hlen|]. apply (Hat 1 "tenet"%string). reflexivity.
Defined.

(** C8 (counterexample).  The providers answer every request of the call,
    except that the poster request for the second recommended movie fails
    on the network: the call returns nothing, it raises, and the first
    movie's results are lost with it. *)
Lemma network_failure_aborts_request :
  snd (recommend test_env (scenario scenario_rest) world_ok (Some "Inception"%string))
    = Ok (Triple ["interstellar"; "tenet"]%string
            [Some (JStr "http://img.example/p.jpg"); Some (JStr "http://img.example/p.jpg")]
            [Some "https://www.youtube.com/watch?v=abc123"%string;
             Some "https://www.youtube.com/watch?v=abc123"%string]) /\
  snd (recommend test_env (scenario scenario_rest)
         (override world_ok 2 (Raise ConnectionError)) (Some "Inception"%string))
    = Raise ConnectionError /\
  snd (recommend_movies test_env (scenario scenario_rest)
         (override world_ok 2 (Raise ConnectionError)) (Some "Inception"%string))
    = Raise ConnectionError.
Proof.
  repeat split.
Qed.

(** C8 (amended).  Take a call of [recommend] that returned a triple, and
    change the providers' answers to the two requests made for the movie at
    index [j] only.  If both clients still return for that movie (as they
    do on a status other than 200, the poster with [None]), the call
    returns again, with the same titles, the new poster and trailer at
    index [j], and every other poster and trailer unchanged. *)
Theorem enrichment_failure_isolated (E : env) (st : store) (w w' : world)
    (movie : option string) (ts : list string) (ps : list (option json))
    (trs : list (option string)) (j : nat) (t : string)
    (p' : option json) (v' : option string) :
  snd (recommend E st w movie) = Ok (Triple ts ps trs) ->
  nth_error ts j = Some t ->
  (forall n url, n <> 2 * j -> n <> 2 * j + 1 -> w' n url = w n url) ->
  fetch_movie_poster E (w' (2 * j)) t = Ok p' ->
  fetch_movie_trailer E (w' (2 * j + 1)) t = Ok v' ->
  exists ps' trs',
    snd (recommend E st w' movie) = Ok (Triple ts ps' trs') /\
    nth_error ps' j = Some p' /\
    nth_error trs' j = Some v' /\
    forall n, n <> j ->
      nth_error ps' n = nth_error ps n /\ nth_error trs' n = nth_error trs n.
Proof.
  intros Hret Hj Hw Hp Hv.
  destruct (AlignFacts.recommend_triple_inv E st w movie ts ps trs Hret)
    as (m & idx & row & -> & Hb & Hidx & Hrow).
  destruct (RankFacts.recommend_triple E st w m idx row ts ps trs Hb Hidx Hrow Hret)
    as (xs & Hxs & -> & -> & ->).
  destruct (AlignFacts.nth_error_map_inv _ _ _ _ Hj) as (x & Hx & Ht).
  set (col := map PyStr.normalize (titles st)) in *.
  assert (Hlen := PipelineFacts.slots_length E col w _ _ _ Hxs).
  destruct (nth_error (movies_list row) j) as [i|] eqn:Hi.
  2:{ apply nth_error_None in Hi.
      assert (j < List.length xs) by (apply nth_error_Some; rewrite Hx; discriminate).
      lia. }
  destruct (PipelineFacts.slots_nth E col w _ 0 xs j i Hxs Hi) as (x0 & Hx0 & Hslot).
  rewrite Hx in Hx0. inversion Hx0; subst x0.
  assert (Hw0 : forall n url, n <> 0 + 2 * j -> n <> S (0 + 2 * j) -> w' n url = w n url).
  { intros n url H1 H2. apply Hw; lia. }
  replace (2 * j + 1) with (S (0 + 2 * j)) in Hv by lia.
  change (2 * j) with (0 + 2 * j) in Hp.
  remember (0 + 2 * j) as k eqn:Hk. clear Hw.
  assert (Hslot' : slot E w' col k i = Ok (t, p', v')).
  { unfold slot in *.
    destruct (at_index (nth_error col (fst i))) as [t0|e]; simpl in *; [|discriminate].
    destruct (fetch_movie_poster E (w k) t0); simpl in Hslot; [|discriminate].
    destruct (fetch_movie_trailer E (w (S k)) t0); simpl in Hslot; [|discriminate].
    inversion Hslot; subst x. unfold slot_title in Ht. simpl in Ht. subst t0.
    rewrite Hp. simpl. rewrite Hv. reflexivity. }
  subst k.
  destruct (PipelineFacts.slots_isolate E col w w' (movies_list row) 0 xs j i (t, p', v')
              Hxs Hw0 Hi Hslot') as (xs' & Hxs' & Hnj & Hoth).
  assert (Htitles : map slot_title xs' = map slot_title xs).
  { apply AlignFacts.map_Some_inj.
    rewrite (RankFacts.slots_titles E w' col _ 0 xs' Hxs').
    now rewrite (RankFacts.slots_titles E w col _ 0 xs Hxs). }
  exists (map slot_poster xs'), (map slot_trailer xs').
  rewrite (PipelineFacts.recommend_found E st w' m idx row Hb Hidx Hrow). simpl.
  fold col. rewrite Hxs'. simpl. rewrite Htitles.
  split; [reflexivity|].
  rewrite !nth_error_map, Hnj. simpl.
  split; [reflexivity|]. split; [reflexivity|].
  intros n Hn. rewrite !nth_error_map, (Hoth n Hn). split; reflexivity.
Qed.

Lemma enrichment_failure_isolated_witness :
  exists ps' trs',
    snd (recommend test_env (scenario scenario_rest) (override world_ok 2 (Ok not_found))
           (Some "Inception"%string))
      = Ok (Triple ["interstellar"; "tenet"]%string ps' trs') /\
    nth_error ps' 1 = Some None /\
    nth_error trs' 1 = Some (Some "https://www.youtube.com/watch?v=abc123"%string) /\
    forall n, n <> 1 ->
      nth_error ps' n
        = nth_error [Some (JStr "http://img.example/p.jpg");
                     Some (JStr "http://img.example/p.jpg")] n /\
      nth_error trs' n
        = nth_error [Some "https://www.youtube.com/watch?v=abc123"%string;
                     Some "https://www.youtube.com/watch?v=abc123"%string] n.
Proof.
  apply (enrichment_failure_isolated test_env (scenario scenario_rest)
           world_ok (override world_ok 2 (Ok not_found)) (Some "Inception"%string)
           ["interstellar"; "tenet"]%string
           [Some (JStr "http://img.example/p.jpg"); Some (JStr "http://img.example/p.jpg")]
           [Some "https://www.youtube.com/watch?v=abc123"%string;
            Some "https://www.youtube.com/watch?v=abc123"%string]
           1 "tenet"%string).
  - reflexivity.
  - reflexivity.
  - intros n url H1 H2. unfold override.
    destruct (n =? 2) eqn:Hn; [|reflexivity].
    apply Nat.eqb_eq in Hn. simpl in H1. lia.
  - reflexivity.
  - reflexivity.
Defined.

(** * Further properties of the code *)

(** ** What [strip] removes *)

Module StripFacts.
Import PyStr.

Lemma lower_empty (s : string) : lower s = EmptyString <-> s = EmptyString.
Proof. destruct s; simpl; split; intros H; try reflexivity; discriminate. Qed.

End StripFacts.

Module PaddingFacts.
Import PyUnicode.

Lemma lstrip_empty (s : str) : lstrip s = [] <-> white s.
Proof.
  unfold white. induction s as [|c r IH]; simpl.
  - split; [constructor | reflexivity].
  - destruct (is_space c) eqn:Hc.
    + rewrite IH. split; [now constructor | intros H; now inversion H].
    + split; [discriminate | intros H; inversion H; congruence].
Qed.

Lemma rstrip_head (c : N) (r : str) : is_space c = false -> rstrip (c :: r) <> [].
Proof.
  intros Hc. simpl. destruct (rstrip r); [rewrite Hc|]; discriminate.
Qed.

Lemma strip_empty (s : str) : strip s = [] <-> white s.
Proof.
  rewrite <- lstrip_empty. unfold strip.
  pose proof (UnicodeFacts.str_lstrip_head s) as Hh.
  destruct (lstrip s) as [|c r].
  - simpl. tauto.
  - split; [|discriminate]. intros H. exfalso. exact (rstrip_head c r Hh H).
Qed.

Lemma rstrip_white (b : str) : white b -> rstrip b = [].
Proof.
  induction 1 as [|c r Hc _ IH]; simpl; [reflexivity|]. now rewrite IH, Hc.
Qed.

Lemma lstrip_app_white (a s : str) : white a -> lstrip (a ++ s) = lstrip s.
Proof.
  induction 1 as [|c r Hc _ IH]; simpl; [reflexivity|]. now rewrite Hc.
Qed.

Lemma rstrip_app_white (s b : str) : white b -> rstrip (s ++ b) = rstrip s.
Proof.
  intros Hb. induction s as [|c r IH]; simpl.
  - now apply rstrip_white.
  - now rewrite IH.
Qed.

Lemma strip_app_white (s b : str) : white b -> strip (s ++ b) = strip s.
Proof.
  intros Hb. unfold strip. induction s as [|c r IH]; simpl.
  - rewrite (proj2 (lstrip_empty b) Hb). reflexivity.
  - destruct (is_space c); [exact IH|].
    exact (rstrip_app_white (c :: r) b Hb).
Qed.

Lemma strip_padding (a s b : str) :
  white a -> white b -> strip (a ++ s ++ b) = strip s.
Proof.
  intros Ha Hb. unfold strip. rewrite (lstrip_app_white a (s ++ b) Ha).
  exact (strip_app_white s b Hb).
Qed.

End PaddingFacts.

(** X1.  The blank test of [recommend] ([movie is None or movie.strip() ==
    ""]), with [str.strip] in full, holds exactly for [None] and for the
    strings made of white space only, the empty string among them: the
    white space of [str.isspace], the no-break space and the em space
    included. *)
Theorem blank_iff_white_space (movie : option PyUnicode.str) :
  PyUnicode.blank movie = true <->
  movie = None \/
  exists m, movie = Some m /\ Forall (fun c => PyUnicode.is_space c = true) m.
Proof.
  destruct movie as [m|]; simpl.
  - pose proof (PaddingFacts.strip_empty m) as Hs. unfold PyUnicode.white in Hs.
    destruct (PyUnicode.strip m) as [|c r].
    + split; [|reflexivity]. intros _. right. exists m. split; [reflexivity|].
      now apply Hs.
    + split; [discriminate|].
      intros [H | (m' & H & Hw)]; [discriminate|]. inversion H; subst m'.
      apply Hs in Hw. discriminate.
  - split; [now left | reflexivity].
Qed.

(** X2.  Matching ignores surrounding white space: padding a title on
    either side with white space of any kind leaves its normal form
    ([s.strip().lower()], in full) unchanged, whatever the tables of
    lower-case mappings. *)
Theorem normalize_ignores_padding (T : PyUnicode.tables) (a s b : PyUnicode.str) :
  Forall (fun c => PyUnicode.is_space c = true) a ->
  Forall (fun c => PyUnicode.is_space c = true) b ->
  PyUnicode.normalize T (a ++ s ++ b) = PyUnicode.normalize T s.
Proof.
  intros Ha Hb. unfold PyUnicode.normalize.
  now rewrite (PaddingFacts.strip_padding a s b Ha Hb).
Qed.

Lemma normalize_ignores_padding_witness :
  PyUnicode.normalize PyUnicode.sample_tables
    ([0xA0; 0x09]%N ++ PyUnicode.codes "Inception" ++ [0x2003; 0x20]%N)
  = PyUnicode.normalize PyUnicode.sample_tables (PyUnicode.codes "Inception").
Proof.
  apply (normalize_ignores_padding PyUnicode.sample_tables
           [0xA0; 0x09]%N (PyUnicode.codes "Inception") [0x2003; 0x20]%N).
  - repeat constructor.
  - repeat constructor.
Defined.

(** X3.  [recommend] reads its argument through the normal form only: two
    titles with the same normal form give the same store and the same
    result, in every store and with every provider. *)
Theorem recommend_query_normal_form (E : env) (st : store) (w : world) (m m' : string) :
  PyStr.normalize m = PyStr.normalize m' ->
  recommend E st w (Some m) = recommend E st w (Some m').
Proof.
  intros H. unfold recommend.
  assert (Hb : String.eqb (PyStr.strip m) "" = String.eqb (PyStr.strip m') "").
  { destruct (String.eqb (PyStr.strip m) "") eqn:H1;
      destruct (String.eqb (PyStr.strip m') "") eqn:H2; try reflexivity; exfalso.
    - apply String.eqb_eq in H1. apply String.eqb_neq in H2. apply H2.
      apply StripFacts.lower_empty. fold (PyStr.normalize m'). rewrite <- H.
      unfold PyStr.normalize. now rewrite H1.
    - apply String.eqb_eq in H2. apply String.eqb_neq in H1. apply H1.
      apply StripFacts.lower_empty. fold (PyStr.normalize m). rewrite H.
      unfold PyStr.normalize. now rewrite H2. }
  rewrite Hb. destruct (String.eqb (PyStr.strip m') ""); [reflexivity|].
  cbv zeta. now rewrite H.
Qed.

Lemma recommend_query_normal_form_witness :
  recommend test_env (scenario scenario_rest) world_ok (Some "  INCEPTION  "%string) =
  recommend test_env (scenario scenario_rest) world_ok (Some "inception"%string).
Proof.
  apply (recommend_query_normal_form test_env (scenario scenario_rest) world_ok
           "  INCEPTION  " "inception").
  reflexivity.
Defined.

(** ** The sort and the slice *)

Module TopFacts.
Import SortFacts.

Lemma insert_desc_scores (x : nat * Q) (l : list (nat * Q)) :
  StronglySorted (fun a b => (snd b <= snd a)%Q) l ->
  StronglySorted (fun a b => (snd b <= snd a)%Q) (insert_desc x l).
Proof.
  induction l as [|y r IH]; simpl; intros Hs.
  - constructor; constructor.
  - inversion Hs as [|? ? Hr Hy]; subst.
    destruct (score_lt (snd x) (snd y)) eqn:Hlt.
    + apply score_lt_true in Hlt. constructor; [now apply IH|].
      eapply Permutation_Forall; [apply Permutation_sym, insert_desc_perm|].
      constructor; [now apply Qlt_le_weak | exact Hy].
    + apply score_lt_false in Hlt. constructor; [exact Hs|].
      constructor; [exact Hlt|].
      eapply Forall_impl; [|exact Hy]. intros z Hz. simpl in Hz.
      eapply Qle_trans; eassumption.
Qed.

Lemma sorted_reverse_scores (l : list (nat * Q)) :
  StronglySorted (fun a b => (snd b <= snd a)%Q) (sorted_reverse l).
Proof.
  induction l as [|x r IH]; simpl; [constructor | now apply insert_desc_scores].
Qed.

(** Inserting keeps the order among the entries of one score. *)
Lemma insert_desc_filter (q : Q) (x : nat * Q) (l : list (nat * Q)) :
  filter (has_score q) (insert_desc x l) = filter (has_score q) (x :: l).
Proof.
  induction l as [|y r IH]; [reflexivity|].
  simpl insert_desc. destruct (score_lt (snd x) (snd y)) eqn:Hlt; [|reflexivity].
  apply score_lt_true in Hlt.
  change (filter (has_score q) (y :: insert_desc x r))
    with (if has_score q y then y :: filter (has_score q) (insert_desc x r)
          else filter (has_score q) (insert_desc x r)).
  rewrite IH. simpl.
  destruct (has_score q x) eqn:Hx, (has_score q y) eqn:Hy; try reflexivity.
  exfalso. unfold has_score in *.
  apply Qeq_bool_iff in Hx. apply Qeq_bool_iff in Hy.
  rewrite Hx, Hy in Hlt. exact (Qlt_irrefl _ Hlt).
Qed.

Lemma sorted_reverse_filter (q : Q) (l : list (nat * Q)) :
  filter (has_score q) (sorted_reverse l) = filter (has_score q) l.
Proof.
  induction l as [|x r IH]; [reflexivity|].
  simpl sorted_reverse. rewrite insert_desc_filter. simpl. now rewrite IH.
Qed.

Lemma StronglySorted_app_inv {A : Type} (R : A -> A -> Prop) (l1 l2 : list A) :
  StronglySorted R (l1 ++ l2) ->
  forall a b, In a l1 -> In b l2 -> R a b.
Proof.
  induction l1 as [|x r IH]; simpl; intros Hs a b Ha Hb; [destruct Ha|].
  inversion Hs as [|? ? Hr Hx]; subst. destruct Ha as [<- | Ha].
  - rewrite Forall_forall in Hx. apply Hx. apply in_or_app. now right.
  - now apply IH.
Qed.

Lemma sorted_fst_NoDup (row : list Q) :
  NoDup (map fst (sorted_reverse (enumerate row))).
Proof.
  eapply Permutation_NoDup.
  - apply Permutation_sym, Permutation_map, sorted_reverse_perm.
  - rewrite enumerate_fst. apply seq_NoDup.
Qed.

Lemma movies_list_le_20 (row : list Q) : List.length (movies_list row) <= 20.
Proof. rewrite movies_list_length. apply Nat.le_min_l. Qed.

End TopFacts.

(** X4.  The model of [sorted(..., reverse=True, key=...)] on any list of
    pairs: the result has the same entries, the scores never increase along
    it, and for every score the entries with that score keep the order they
    had in the input (the sort is stable). *)
Theorem sorted_reverse_stable (l : list (nat * Q)) :
  Permutation (sorted_reverse l) l /\
  StronglySorted (fun a b => (snd b <= snd a)%Q) (sorted_reverse l) /\
  forall q, filter (has_score q) (sorted_reverse l) = filter (has_score q) l.
Proof.
  split; [apply SortFacts.sorted_reverse_perm|].
  split; [apply TopFacts.sorted_reverse_scores|].
  intros q. apply TopFacts.sorted_reverse_filter.
Qed.

(** X5.  The entry the slice [[1:21]] drops is the first maximum of the
    row: it carries the score of its index, no entry of the row has a
    greater score, and an entry with the same score has no smaller index. *)
Theorem dropped_entry_is_first_maximum (row : list Q) (i : nat) (s : Q) :
  hd_error (sorted_reverse (enumerate row)) = Some (i, s) ->
  nth_error row i = Some s /\
  forall j s', nth_error row j = Some s' ->
               (s' <= s)%Q /\ ((s' == s)%Q -> i <= j).
Proof.
  intros Hhd.
  pose proof (SortFacts.sorted_enumerate row) as Hsorted.
  pose proof (SortFacts.sorted_reverse_perm (enumerate row)) as Hperm.
  destruct (sorted_reverse (enumerate row)) as [|h rest]; [discriminate|].
  inversion Hhd; subst h. split.
  - apply SortFacts.enumerate_In, (Permutation_in _ Hperm). now left.
  - intros j s' Hj. apply SortFacts.enumerate_In in Hj.
    apply (Permutation_in _ (Permutation_sym Hperm)) in Hj.
    destruct Hj as [Hj | Hj].
    + inversion Hj; subst. split; [apply Qle_refl | intros _; apply Nat.le_refl].
    + inversion Hsorted as [|? ? _ Hall]; subst.
      rewrite Forall_forall in Hall. specialize (Hall _ Hj).
      destruct Hall as [Hlt | [Heq Hfst]]; simpl in *.
      * split; [now apply Qlt_le_weak|]. intros Heq. rewrite Heq in Hlt.
        exfalso. exact (Qlt_irrefl _ Hlt).
      * split; [rewrite Heq; apply Qle_refl | intros _; lia].
Qed.

Lemma dropped_entry_is_first_maximum_witness :
  nth_error [5 # 10; 1; 1]%Q 1 = Some 1%Q /\
  forall j s', nth_error [5 # 10; 1; 1]%Q j = Some s' ->
               (s' <= 1)%Q /\ ((s' == 1)%Q -> 1 <= j).
Proof.
  apply (dropped_entry_is_first_maximum [5 # 10; 1; 1]%Q 1 1%Q).
  reflexivity.
Defined.

(** X6.  The slice keeps the best of what is left: a catalog entry that is
    neither returned nor the dropped first one ranks after every returned
    entry (a smaller score, or the same score and a greater index). *)
Theorem movies_list_is_top (row : list Q) (a b : nat * Q) :
  In a (movies_list row) ->
  In b (enumerate row) ->
  ~ In b (movies_list row) ->
  hd_error (sorted_reverse (enumerate row)) <> Some b ->
  ranks_before a b.
Proof.
  unfold movies_list. intros Ha Hb Hnot Hhd.
  pose proof (SortFacts.sorted_enumerate row) as Hsorted.
  apply (Permutation_in _ (Permutation_sym
           (SortFacts.sorted_reverse_perm (enumerate row)))) in Hb.
  destruct (sorted_reverse (enumerate row)) as [|h rest]; [destruct Hb|].
  simpl in *. destruct Hb as [-> | Hb]; [now contradiction Hhd|].
  inversion Hsorted as [|? ? Hrest _]; subst.
  rewrite <- (firstn_skipn 20 rest) in Hrest, Hb.
  apply in_app_or in Hb. destruct Hb as [Hb | Hb]; [contradiction|].
  exact (TopFacts.StronglySorted_app_inv _ _ _ Hrest a b Ha Hb).
Qed.

Lemma movies_list_is_top_witness :
  ranks_before (1, (9 # 10)%Q) (21, (1 # 10)%Q).
Proof.
  apply (movies_list_is_top
           ([1; 9 # 10]%Q ++ repeat (5 # 10)%Q 19 ++ [(1 # 10)%Q])
           (1, (9 # 10)%Q) (21, (1 # 10)%Q)).
  - vm_compute. now left.
  - vm_compute. do 21 right. now left.
  - vm_compute. intros H.
    repeat (destruct H as [H | H]; [discriminate H|]). exact H.
  - vm_compute. discriminate.
Defined.

(** X7.  [recommend] walks at most 20 entries, no catalog index twice, and
    every index it walks is a position of the row. *)
Theorem movies_list_distinct_in_range (row : list Q) :
  List.length (movies_list row) <= 20 /\
  NoDup (map fst (movies_list row)) /\
  Forall (fun p => fst p < List.length row) (movies_list row).
Proof.
  split; [apply TopFacts.movies_list_le_20|]. split.
  - unfold movies_list. pose proof (TopFacts.sorted_fst_NoDup row) as Hnd.
    rewrite <- (firstn_skipn 1 (sorted_reverse (enumerate row))), map_app in Hnd.
    apply NoDup_app_remove_l in Hnd.
    rewrite <- (firstn_skipn 20 (skipn 1 (sorted_reverse (enumerate row)))), map_app in Hnd.
    now apply NoDup_app_remove_r in Hnd.
  - apply Forall_forall. intros p Hp. apply nth_error_Some.
    rewrite (SortFacts.movies_list_nth_error row p Hp). discriminate.
Qed.

(** ** What a call of [recommend] reads *)

Module ReadFacts.

Lemma slots_ext_below (E : env) (col : list string) (w w' : world)
    (ml : list (nat * Q)) :
  forall k,
    (forall n url, k <= n < k + 2 * List.length ml -> w' n url = w n url) ->
    slots E w' col ml k = slots E w col ml k.
Proof.
  induction ml as [|i rest IH]; intros k Hw; simpl; [reflexivity|].
  simpl List.length in Hw.
  rewrite (PipelineFacts.slot_ext E col w w' k i)
    by (intros url; apply Hw; lia).
  rewrite (IH (S (S k))); [reflexivity|].
  intros n url Hn. apply Hw. lia.
Qed.

(** The result on the store with normalized titles is the result on the
    store as loaded. *)
Lemma recommend_normalized_store (E : env) (st : store) (w : world)
    (movie : option string) :
  snd (recommend E (normalize_titles st) w movie) = snd (recommend E st w movie).
Proof.
  destruct movie as [m|]; [|reflexivity]. unfold recommend.
  destruct (String.eqb (PyStr.strip m) ""); [reflexivity|].
  cbv zeta. unfold normalize_titles. simpl.
  now rewrite PyStrFacts.normalize_column_idem.
Qed.

Lemma recommend_store (E : env) (st : store) (w : world) (movie : option string) :
  fst (recommend E st w movie) = if blank movie then st else normalize_titles st.
Proof.
  destruct movie as [m|]; simpl; [|reflexivity].
  destruct (String.eqb (PyStr.strip m) ""); reflexivity.
Qed.

End ReadFacts.

(** X8.  One call of [recommend] issues at most 40 provider requests: two
    worlds that answer the requests number 0 to 39 alike give the same
    store and the same result, whatever they answer later. *)
Theorem recommend_reads_forty_requests (E : env) (st : store) (w w' : world)
    (movie : option string) :
  (forall n url, n < 40 -> w' n url = w n url) ->
  recommend E st w' movie = recommend E st w movie.
Proof.
  intros Hw. destruct movie as [m|]; [|reflexivity]. unfold recommend.
  destruct (String.eqb (PyStr.strip m) ""); [reflexivity|].
  cbv zeta. f_equal.
  destruct (negb _); [reflexivity|].
  destruct (at_index (first_index _ _)) as [idx|e]; simpl; [|reflexivity].
  destruct (at_index (nth_error _ idx)) as [row|e]; simpl; [|reflexivity].
  rewrite !PipelineFacts.enrich_slots.
  rewrite (ReadFacts.slots_ext_below E _ w w'); [reflexivity|].
  intros n url Hn. apply Hw.
  pose proof (TopFacts.movies_list_le_20 row). lia.
Qed.

Lemma recommend_reads_forty_requests_witness :
  recommend test_env (scenario scenario_rest)
    (override world_ok 40 (Raise ConnectionError)) (Some "Tenet"%string) =
  recommend test_env (scenario scenario_rest) world_ok (Some "Tenet"%string).
Proof.
  apply (recommend_reads_forty_requests test_env (scenario scenario_rest) world_ok
           (override world_ok 40 (Raise ConnectionError)) (Some "Tenet"%string)).
  intros n url Hn. unfold override.
  destruct (n =? 40) eqn:H40; [|reflexivity].
  apply Nat.eqb_eq in H40. lia.
Defined.

(** X9.  Rewriting the title column does not change what later calls
    return: the result of a call on the store an earlier call left is the
    result of the same call on the store as loaded. *)
Theorem recommend_result_ignores_earlier_calls (E : env) (st : store) (w w0 : world)
    (movie movie0 : option string) :
  snd (recommend E (fst (recommend E st w0 movie0)) w movie) =
  snd (recommend E st w movie).
Proof.
  rewrite ReadFacts.recommend_store.
  destruct (blank movie0); [reflexivity|].
  apply ReadFacts.recommend_normalized_store.
Qed.

(** X10.  Every title of a returned triple is a title of the catalog in
    normal form (trimmed, lower case), and a triple holds at most 20. *)
Theorem recommend_titles_are_normalized_catalog_titles (E : env) (st : store) (w : world)
    (movie : option string) (ts : list string) (ps : list (option json))
    (trs : list (option string)) :
  snd (recommend E st w movie) = Ok (Triple ts ps trs) ->
  List.length ts <= 20 /\
  forall t, In t ts ->
            In t (map PyStr.normalize (titles st)) /\ PyStr.normalize t = t.
Proof.
  intros Hret.
  destruct (AlignFacts.recommend_triple_inv E st w movie ts ps trs Hret)
    as (m & idx & row & -> & Hb & Hidx & Hrow).
  destruct (RankFacts.recommend_triple E st w m idx row ts ps trs Hb Hidx Hrow Hret)
    as (xs & Hxs & -> & _).
  split.
  - rewrite length_map, (PipelineFacts.slots_length _ _ _ _ _ _ Hxs).
    apply TopFacts.movies_list_le_20.
  - intros t Ht.
    assert (Hin : In t (map PyStr.normalize (titles st))).
    { apply (in_map Some) in Ht.
      rewrite (RankFacts.slots_titles _ _ _ _ _ _ Hxs) in Ht.
      apply in_map_iff in Ht. destruct Ht as (i & Hi & _).
      eapply nth_error_In, Hi. }
    split; [exact Hin|].
    apply in_map_iff in Hin. destruct Hin as (u & <- & _).
    apply PyStrFacts.normalize_idem.
Qed.

Lemma recommend_titles_are_normalized_catalog_titles_witness :
  List.length ["interstellar"; "inception"]%string <= 20 /\
  forall t, In t ["interstellar"; "inception"]%string ->
            In t (map PyStr.normalize (titles (scenario scenario_rest))) /\
            PyStr.normalize t = t.
Proof.
  apply (recommend_titles_are_normalized_catalog_titles test_env (scenario scenario_rest)
           world_404 (Some " Tenet"%string) ["interstellar"; "inception"]%string
           [None; None] [None; None]).
  reflexivity.
Defined.

(** ** What the clients return *)

Module ReturnFacts.

Lemma ne_str_true (p : json) (s : string) : ne_str p s = true <-> p <> JStr s.
Proof.
  unfold ne_str. rewrite negb_true_iff. destruct p; simpl;
    try (split; [intros _; discriminate | reflexivity]).
  rewrite String.eqb_neq. split; intros H; congruence.
Qed.

Lemma bind_ok {A B : Type} (c : result A) (k : A -> result B) (b : B) :
  bind c k = Ok b -> exists a, c = Ok a /\ k a = Ok b.
Proof. destruct c as [a|e]; simpl; [now exists a | discriminate]. Qed.

Lemma getitem_str_ok (v : json) (k : string) (x : json) :
  getitem_str v k = Ok x <-> exists kv, v = JObj kv /\ lookup k kv = Some x.
Proof.
  split.
  - destruct v; simpl; try discriminate.
    destruct (lookup k kv) as [y|] eqn:Hl; [|discriminate].
    intros H. inversion H; subst. now exists kv.
  - intros (kv & -> & Hl). simpl. now rewrite Hl.
Qed.

End ReturnFacts.

(** X12.  The poster client returns a poster in one case only: the answer
    has status 200, its body decodes to an object, and the object's
    [Poster] field is neither the placeholder "N/A" nor [null]; the poster
    returned is that field.  A [null] field comes back as [None], like a
    missing poster, and the placeholder is never returned. *)
Theorem poster_returned_iff (E : env) (get : http_get) (t : string) (p : json) :
  fetch_movie_poster E get t = Ok (Some p) <->
  exists r kv,
    get (poster_url E t) = Ok r /\ status_code r = 200%Z /\
    body r = Some (JObj kv) /\ lookup "Poster" kv = Some p /\
    p <> JStr "N/A" /\ p <> JNull.
Proof.
  unfold fetch_movie_poster. split.
  - intros H. apply ReturnFacts.bind_ok in H. destruct H as (r & Hg & H).
    destruct (status_code r =? 200)%Z eqn:Hs; [|discriminate].
    apply Z.eqb_eq in Hs.
    apply ReturnFacts.bind_ok in H. destruct H as (data & Hd & H).
    apply ReturnFacts.bind_ok in H. destruct H as (has & Hin & H).
    destruct has; [|discriminate].
    apply ReturnFacts.bind_ok in H. destruct H as (poster & Hp & H).
    apply ReturnFacts.getitem_str_ok in Hp. destruct Hp as (kv & -> & Hl).
    destruct (ne_str poster "N/A") eqn:Hne; [|discriminate].
    apply ReturnFacts.ne_str_true in Hne.
    assert (Hposter : poster = p /\ p <> JNull).
    { destruct poster; simpl in H; inversion H; subst; split;
        try reflexivity; discriminate. }
    destruct Hposter as [-> Hnull].
    exists r, kv. unfold response_json in Hd.
    destruct (body r) as [j|]; [|discriminate]. inversion Hd; subst.
    repeat split; assumption.
  - intros (r & kv & Hg & Hs & Hb & Hl & Hne & Hnull).
    rewrite Hg. simpl. rewrite Hs. simpl.
    unfold response_json. rewrite Hb. simpl. rewrite Hl. simpl.
    apply ReturnFacts.ne_str_true in Hne. rewrite Hne.
    destruct p; try reflexivity. contradiction.
Qed.

(** X13.  The trailer client returns a URL in one case only: the answer has
    status 200, its body decodes to an object whose [items] is a list that
    is not empty, and the first item holds an object [id] with a field
    [videoId].  The URL is the watch URL of that identifier; the other
    search results are not read. *)
Theorem trailer_returned_iff (E : env) (get : http_get) (t : string) (u : string) :
  fetch_movie_trailer E get t = Ok (Some u) <->
  exists r kv others ikv idkv v,
    get (trailer_url E t) = Ok r /\ status_code r = 200%Z /\
    body r = Some (JObj kv) /\
    lookup "items" kv = Some (JArr (JObj ikv :: others)) /\
    lookup "id" ikv = Some (JObj idkv) /\
    lookup "videoId" idkv = Some v /\
    u = ("https://www.youtube.com/watch?v=" ++ format_value E v)%string.
Proof.
  unfold fetch_movie_trailer. split.
  - intros H. apply ReturnFacts.bind_ok in H. destruct H as (r & Hg & H).
    destruct (status_code r =? 200)%Z eqn:Hs; [|discriminate].
    apply Z.eqb_eq in Hs.
    apply ReturnFacts.bind_ok in H. destruct H as (data & Hd & H).
    apply ReturnFacts.bind_ok in H. destruct H as (has & Hin & H).
    destruct has; [|discriminate].
    apply ReturnFacts.bind_ok in H. destruct H as (items & Hi & H).
    apply ReturnFacts.getitem_str_ok in Hi. destruct Hi as (kv & -> & Hl).
    apply ReturnFacts.bind_ok in H. destruct H as (n & Hn & H).
    destruct (0 <? n) eqn:Hpos; [|discriminate].
    apply ReturnFacts.bind_ok in H. destruct H as (first & Hf & H).
    apply ReturnFacts.bind_ok in H. destruct H as (id & Hid & H).
    apply ReturnFacts.getitem_str_ok in Hid. destruct Hid as (ikv & -> & Hlid).
    apply ReturnFacts.bind_ok in H. destruct H as (v & Hv & H).
    apply ReturnFacts.getitem_str_ok in Hv. destruct Hv as (idkv & -> & Hlv).
    inversion H; subst u.
    destruct items as [| | | s | l | kv']; simpl in Hf; try discriminate.
    + destruct s; discriminate.
    + destruct l as [|x others]; [discriminate|]. inversion Hf; subst x.
      unfold response_json in Hd.
      destruct (body r) as [j|] eqn:Hbody; [|discriminate]. inversion Hd; subst.
      exists r, kv, others, ikv, idkv, v. repeat split; assumption.
  - intros (r & kv & others & ikv & idkv & v
            & Hg & Hs & Hb & Hl & Hlid & Hlv & ->).
    rewrite Hg. simpl. rewrite Hs. simpl.
    unfold response_json. rewrite Hb. simpl. rewrite Hl. simpl.
    rewrite Hlid. simpl. now rewrite Hlv.
Qed.

(** X14.  A 200 answer whose JSON body is [null], a boolean or a number
    makes each client raise [TypeError] at its membership test. *)
Theorem clients_scalar_body (E : env) (get : http_get) (t : string) (r : response)
    (j : json) :
  status_code r = 200%Z ->
  body r = Some j ->
  match j with JNull | JBool _ | JNum _ => True | _ => False end ->
  (get (poster_url E t) = Ok r -> fetch_movie_poster E get t = Raise TypeError) /\
  (get (trailer_url E t) = Ok r -> fetch_movie_trailer E get t = Raise TypeError).
Proof.
  intros Hs Hb Hj.
  split; intros Hg; unfold fetch_movie_poster, fetch_movie_trailer, response_json;
    rewrite Hg; simpl; rewrite Hs, Hb; simpl;
    destruct j; try contradiction; reflexivity.
Qed.

Lemma clients_scalar_body_witness :
  fetch_movie_poster test_env
    (fun _ => Ok {| status_code := 200; body := Some JNull |}) "Tenet" = Raise TypeError /\
  fetch_movie_trailer test_env
    (fun _ => Ok {| status_code := 200; body := Some JNull |}) "Tenet" = Raise TypeError.
Proof.
  destruct (clients_scalar_body test_env
              (fun _ => Ok {| status_code := 200; body := Some JNull |}) "Tenet"
              {| status_code := 200; body := Some JNull |} JNull) as [Hp Ht].
  - reflexivity.
  - reflexivity.
  - exact I.
  - split; [apply Hp | apply Ht]; reflexivity.
Defined.

(** ** The page of recommendations *)

Module PageFacts.

Lemma triple_lengths (E : env) (st : store) (w : world) (movie : option string)
    (ts : list string) (ps : list (option json)) (trs : list (option string)) :
  snd (recommend E st w movie) = Ok (Triple ts ps trs) ->
  List.length ps = List.length ts /\
  List.length trs = List.length ts /\
  List.length ts <= 20.
Proof.
  intros Hret.
  destruct (AlignFacts.recommend_triple_inv E st w movie ts ps trs Hret)
    as (m & idx & row & -> & Hb & Hidx & Hrow).
  destruct (RankFacts.recommend_triple E st w m idx row ts ps trs Hb Hidx Hrow Hret)
    as (xs & Hxs & -> & -> & ->).
  rewrite !length_map, (PipelineFacts.slots_length _ _ _ _ _ _ Hxs).
  repeat split. apply TopFacts.movies_list_le_20.
Qed.

End PageFacts.

(** X15.  When [recommend_movies] renders, the selected title was found in
    the catalog; the page lists the catalog with normalized titles, which
    is also the store the call leaves; it echoes the form field as it was
    sent; and its three result lists have one length, at most 20. *)
Theorem recommend_movies_page (E : env) (st : store) (w : world)
    (selected : option string) (pg : page) :
  snd (recommend_movies E st w selected) = Ok pg ->
  fst (recommend_movies E st w selected) = normalize_titles st /\
  movie_list pg = map PyStr.normalize (titles st) /\
  selected_movie pg = selected /\
  List.length (posters pg) = List.length (recommendations pg) /\
  List.length (page_trailers pg) = List.length (recommendations pg) /\
  List.length (recommendations pg) <= 20 /\
  exists m, selected = Some m /\ valid st m.
Proof.
  unfold recommend_movies.
  pose proof (ReadFacts.recommend_store E st w selected) as Hst.
  destruct (recommend E st w selected) as [st' r] eqn:Hrec. simpl in *.
  destruct r as [[recs ps|recs ps trs]|e]; simpl; try discriminate.
  intros H. inversion H; subst pg. simpl.
  assert (Hret : snd (recommend E st w selected) = Ok (Triple recs ps trs))
    by now rewrite Hrec.
  destruct (AlignFacts.recommend_triple_inv E st w selected recs ps trs Hret)
    as (m & idx & row & -> & Hb & Hidx & Hrow).
  destruct (PageFacts.triple_lengths E st w (Some m) recs ps trs Hret)
    as (Hl1 & Hl2 & Hl3).
  change (blank (Some m)) with (String.eqb (PyStr.strip m) "") in Hst.
  simpl in Hb. rewrite Hb in Hst. subst st'.
  repeat split; try assumption; try reflexivity.
  exists m. split; [reflexivity|]. split; [exact Hb|].
  eapply nth_error_In, PipelineFacts.first_index_nth, Hidx.
Qed.

(** ** Accounts *)

Module AccountFacts.
Import Accounts.

Lemma find_app {A : Type} (f : A -> bool) (l l' : list A) :
  find f (l ++ l') = match find f l with Some x => Some x | None => find f l' end.
Proof.
  induction l as [|a r IH]; simpl; [reflexivity|].
  destruct (f a); [reflexivity | exact IH].
Qed.

Lemma find_existsb {A : Type} (f : A -> bool) (l : list A) :
  find f l = None <-> existsb f l = false.
Proof.
  induction l as [|a r IH]; simpl; [tauto|].
  destruct (f a); simpl; [split; discriminate | exact IH].
Qed.

Lemma next_id_fresh (db : table) (r : User) : In r db -> id r < next_id db.
Proof.
  unfold next_id. induction db as [|a l IH]; cbn [In map fold_right]; [tauto|].
  intros [-> | H]; [lia|]. specialize (IH H). lia.
Qed.

Lemma get_new (db : table) (u h : string) :
  get (db ++ [{| id := next_id db; username := u; password := h |}]) (next_id db)
  = Some {| id := next_id db; username := u; password := h |}.
Proof.
  unfold get. rewrite find_app.
  destruct (find (fun r => id r =? next_id db) db) as [r|] eqn:Hf.
  - apply find_some in Hf. destruct Hf as [Hin Heq].
    apply Nat.eqb_eq in Heq. pose proof (next_id_fresh db r Hin). lia.
  - simpl. now rewrite Nat.eqb_refl.
Qed.

(** The one way a POST to [register] changes the table. *)
Lemma register_cases (K : backend) (B : Bcrypt) (salt : string) (db : table)
    (rq : request) :
  fst (fst (register K B salt db rq)) = db \/
  exists name h,
    form_username rq = Some name /\
    existsb (fun r => same_name K (username r) name) db = false /\
    fst (fst (register K B salt db rq))
      = db ++ [{| id := next_id db; username := name; password := h |}].
Proof.
  unfold register. destruct (req_method rq); [now left|].
  destruct (first_by_username K db (form_username rq)); [now left|].
  destruct (generate_password_hash B salt (form_password rq)) as [h|e]; [|now left].
  unfold add_commit. destruct (form_username rq) as [name|]; [|now left].
  destruct (existsb _ db) eqn:Hex; simpl; [now left|].
  destruct (strict_length K && _); simpl; [now left|].
  right. exists name, h. repeat split. exact Hex.
Qed.

Lemma unique_snoc (K : backend) (db : table) (name h : string) :
  (forall a b, same_name K a b = true -> same_name K b a = true) ->
  unique K db ->
  existsb (fun r => same_name K (username r) name) db = false ->
  unique K (db ++ [{| id := next_id db; username := name; password := h |}]).
Proof.
  intros Hsym [Hnames Hids] Hex.
  assert (Hno : forall r, In r db -> same_name K (username r) name = false).
  { intros r Hr. destruct (same_name K (username r) name) eqn:Hs; [|reflexivity].
    assert (existsb (fun r => same_name K (username r) name) db = true)
      by (apply existsb_exists; now exists r).
    congruence. }
  split.
  - intros i j ri rj Hi Hj Hsame.
    destruct (Nat.lt_ge_cases i (List.length db)) as [Hil | Hil];
      destruct (Nat.lt_ge_cases j (List.length db)) as [Hjl | Hjl].
    + rewrite nth_error_app1 in Hi, Hj by assumption. eapply Hnames; eassumption.
    + rewrite nth_error_app1 in Hi by assumption.
      rewrite nth_error_app2 in Hj by assumption.
      destruct (j - List.length db) as [|n] eqn:Hn; simpl in Hj;
        [|destruct n; discriminate].
      inversion Hj; subst rj. simpl in Hsame.
      rewrite (Hno ri (nth_error_In _ _ Hi)) in Hsame. discriminate.
    + rewrite nth_error_app2 in Hi by assumption.
      rewrite nth_error_app1 in Hj by assumption.
      destruct (i - List.length db) as [|n] eqn:Hn; simpl in Hi;
        [|destruct n; discriminate].
      inversion Hi; subst ri. simpl in Hsame. apply Hsym in Hsame.
      rewrite (Hno rj (nth_error_In _ _ Hj)) in Hsame. discriminate.
    + rewrite nth_error_app2 in Hi, Hj by assumption.
      destruct (i - List.length db) as [|n] eqn:Hn; simpl in Hi;
        [|destruct n; discriminate].
      destruct (j - List.length db) as [|n'] eqn:Hn'; simpl in Hj;
        [|destruct n'; discriminate].
      lia.
  - rewrite map_app. apply NoDup_app; [exact Hids | repeat constructor; simpl; tauto |].
    intros a Ha [<- | []]. apply in_map_iff in Ha. destruct Ha as (r & Hr & Hin).
    simpl in Hr. pose proof (next_id_fresh db r Hin). lia.
Qed.

End AccountFacts.

(** X16.  [register] keeps the accounts apart: in a table where no two rows
    have the same user name (for the backend's collation) nor the same id,
    no request makes two such rows.  A request either leaves the table as
    it is, or appends one row, with the submitted name, which no row had,
    and an id no row had. *)
Theorem register_keeps_accounts_unique (K : Accounts.backend) (B : Accounts.Bcrypt)
    (salt : string) (db : Accounts.table) (rq : Accounts.request) :
  (forall a b, Accounts.same_name K a b = true -> Accounts.same_name K b a = true) ->
  Accounts.unique K db ->
  Accounts.unique K (fst (fst (Accounts.register K B salt db rq))) /\
  (fst (fst (Accounts.register K B salt db rq)) = db \/
   exists name h,
     Accounts.form_username rq = Some name /\
     Accounts.first_by_username K db (Some name) = None /\
     fst (fst (Accounts.register K B salt db rq))
       = db ++ [{| Accounts.id := Accounts.next_id db;
                   Accounts.username := name;
                   Accounts.password := h |}]).
Proof.
  intros Hsym Huniq.
  destruct (AccountFacts.register_cases K B salt db rq) as [-> | (name & h & Hu & Hex & ->)].
  - split; [exact Huniq | now left].
  - split; [now apply AccountFacts.unique_snoc|].
    right. exists name, h. split; [exact Hu|]. split; [|reflexivity].
    now apply AccountFacts.find_existsb.
Qed.

Lemma register_keeps_accounts_unique_witness :
  Accounts.unique Accounts.binary_backend
    (fst (fst (Accounts.register Accounts.binary_backend Accounts.toy_bcrypt "salt"
                 [{| Accounts.id := 1; Accounts.username := "ann";
                     Accounts.password := "h:secret" |};
                  {| Accounts.id := 2; Accounts.username := "bob";
                     Accounts.password := "h:hunter2" |}]
                 (Accounts.post "cat" "meow" None)))) /\
  List.length
    (fst (fst (Accounts.register Accounts.binary_backend Accounts.toy_bcrypt "salt"
                 [{| Accounts.id := 1; Accounts.username := "ann";
                     Accounts.password := "h:secret" |};
                  {| Accounts.id := 2; Accounts.username := "bob";
                     Accounts.password := "h:hunter2" |}]
                 (Accounts.post "cat" "meow" None)))) = 3.
Proof.
  split; [|reflexivity].
  apply (register_keeps_accounts_unique Accounts.binary_backend Accounts.toy_bcrypt
           "salt"
           [{| Accounts.id := 1; Accounts.username := "ann";
               Accounts.password := "h:secret" |};
            {| Accounts.id := 2; Accounts.username := "bob";
               Accounts.password := "h:hunter2" |}]
           (Accounts.post "cat" "meow" None)).
  - intros a b H. simpl in *. now rewrite String.eqb_sym.
  - split.
    + intros i j ri rj Hi Hj Hsame.
      destruct i as [|[|i]]; destruct j as [|[|j]]; simpl in Hi, Hj;
        try reflexivity;
        try (destruct i; discriminate); try (destruct j; discriminate);
        inversion Hi; inversion Hj; subst; discriminate Hsame.
    + simpl. repeat constructor; simpl; intuition discriminate.
Defined.

(** X17.  Registration and login fit together.  When the name is free, the
    hash that bcrypt makes of the password checks against it, and the
    backend accepts the lengths, [register] appends the account and sends
    the browser to the login page; [login] with the same name and password
    then stores the new user's id in the session and redirects to [next]
    (to the home page when there is none); [dashboard] greets the user by
    the registered name; [logout] empties the session, after which
    [dashboard] answers as to any anonymous visitor. *)
Theorem register_then_login (K : Accounts.backend) (B : Accounts.Bcrypt)
    (salt : string) (db : Accounts.table) (u pw h : string)
    (next_page : option string) (session : option nat) :
  Accounts.first_by_username K db (Some u) = None ->
  Accounts.same_name K u u = true ->
  Accounts.generate_password_hash B salt (Some pw) = Ok h ->
  Accounts.check_password_hash B h (Some pw) = Ok true ->
  Accounts.strict_length K && (Accounts.too_long u || Accounts.too_long h) = false ->
  let db' := db ++ [{| Accounts.id := Accounts.next_id db;
                       Accounts.username := u;
                       Accounts.password := h |}] in
  Accounts.register K B salt db (Accounts.post u pw None)
    = (db', [("Registration successful! Please log in."%string, "message"%string)],
       Accounts.Done (Accounts.Redirect "/login")) /\
  Accounts.login K B db' session (Accounts.post u pw next_page)
    = (Some (Accounts.next_id db), [],
       Accounts.Done (Accounts.Redirect (Accounts.next_or_home next_page))) /\
  Accounts.dashboard db' (Some (Accounts.next_id db))
    = Accounts.Render "dashboard.html" (Some u) /\
  Accounts.logout db' (Some (Accounts.next_id db)) = (None, Accounts.Redirect "/login") /\
  Accounts.dashboard db' None = Accounts.Unauthorized.
Proof.
  intros Hfree Hrefl Hgen Hcheck Hlen db'.
  assert (Hex : existsb (fun r => Accounts.same_name K (Accounts.username r) u) db = false)
    by now apply AccountFacts.find_existsb.
  split; [|split; [|split; [|split]]].
  - unfold Accounts.register. simpl. unfold Accounts.first_by_username in Hfree.
    rewrite Hfree, Hgen. simpl. now rewrite Hex, Hlen.
  - unfold Accounts.login. simpl. unfold db'. rewrite AccountFacts.find_app.
    unfold Accounts.first_by_username in Hfree. rewrite Hfree. simpl.
    rewrite Hrefl. simpl. now rewrite Hcheck.
  - unfold Accounts.dashboard, Accounts.current_user, Accounts.load_user, db'.
    now rewrite AccountFacts.get_new.
  - unfold Accounts.logout, Accounts.current_user, Accounts.load_user, db'.
    now rewrite AccountFacts.get_new.
  - reflexivity.
Qed.

Lemma register_then_login_witness :
  Accounts.login Accounts.binary_backend Accounts.toy_bcrypt
    ([] ++ [{| Accounts.id := Accounts.next_id [];
               Accounts.username := "ann";
               Accounts.password := "h:secret" |}])
    None (Accounts.post "ann" "secret" (Some "/dashboard"%string))
  = (Some (Accounts.next_id []), [],
     Accounts.Done (Accounts.Redirect (Accounts.next_or_home (Some "/dashboard"%string)))).
Proof.
  apply (register_then_login Accounts.binary_backend Accounts.toy_bcrypt "salt" []
           "ann" "secret" "h:secret" (Some "/dashboard"%string) None);
    reflexivity.
Defined.

(** X18.  [login] opens a session only on a checked password: when it
    changes the session or answers with a redirect, the request was a POST,
    the table holds a user of the submitted name whose stored hash checked
    against the submitted password, and it is this user's id that the
    session holds. *)
Theorem login_requires_checked_password (K : Accounts.backend) (B : Accounts.Bcrypt)
    (db : Accounts.table) (session : option nat) (rq : Accounts.request)
    (session' : option nat) (fl : list Accounts.flash)
    (out : Accounts.outcome Accounts.reply) :
  Accounts.login K B db session rq = (session', fl, out) ->
  session' <> session \/ (exists url, out = Accounts.Done (Accounts.Redirect url)) ->
  exists name user,
    Accounts.req_method rq = Accounts.POST /\
    Accounts.form_username rq = Some name /\
    In user db /\
    Accounts.same_name K (Accounts.username user) name = true /\
    Accounts.check_password_hash B (Accounts.password user) (Accounts.form_password rq)
      = Ok true /\
    session' = Some (Accounts.id user) /\
    out = Accounts.Done (Accounts.Redirect (Accounts.next_or_home (Accounts.args_next rq))).
Proof.
  unfold Accounts.login, Accounts.first_by_username. intros Hlogin Hopen.
  assert (Hno : forall f,
             (session, f, Accounts.Done (Accounts.Render "login.html" None))
               = (session', fl, out) -> False).
  { intros f H. inversion H; subst.
    destruct Hopen as [Hs | (url & Hu)]; [now apply Hs | discriminate]. }
  destruct (Accounts.req_method rq) eqn:Hm; [now apply Hno in Hlogin|].
  destruct (Accounts.form_username rq) as [name|] eqn:Hname; [|now apply Hno in Hlogin].
  destruct (find _ db) as [user|] eqn:Hfind; [|now apply Hno in Hlogin].
  apply find_some in Hfind. destruct Hfind as [Hin Hsame].
  destruct (Accounts.check_password_hash B (Accounts.password user)
              (Accounts.form_password rq)) as [[|]|e] eqn:Hc.
  - inversion Hlogin; subst. exists name, user. repeat split; assumption.
  - now apply Hno in Hlogin.
  - inversion Hlogin; subst.
    destruct Hopen as [Hs | (url & Hu)]; [now contradiction Hs | discriminate].
Qed.

Lemma login_requires_checked_password_witness :
  exists name user,
    Accounts.req_method (Accounts.post "ann" "secret" None) = Accounts.POST /\
    Accounts.form_username (Accounts.post "ann" "secret" None) = Some name /\
    In user [{| Accounts.id := 1; Accounts.username := "ann";
                Accounts.password := "h:secret" |}] /\
    Accounts.same_name Accounts.binary_backend (Accounts.username user) name = true /\
    Accounts.check_password_hash Accounts.toy_bcrypt (Accounts.password user)
      (Accounts.form_password (Accounts.post "ann" "secret" None)) = Ok true /\
    Some 1 = Some (Accounts.id user) /\
    Accounts.Done (Accounts.Redirect "/")
      = Accounts.Done (Accounts.Redirect
          (Accounts.next_or_home (Accounts.args_next (Accounts.post "ann" "secret" None)))).
Proof.
  apply (login_requires_checked_password Accounts.binary_backend Accounts.toy_bcrypt
           [{| Accounts.id := 1; Accounts.username := "ann";
               Accounts.password := "h:secret" |}]
           None (Accounts.post "ann" "secret" None) (Some 1) []
           (Accounts.Done (Accounts.Redirect "/"))).
  - reflexivity.
  - left. discriminate.
Defined.

(** X19.  A registered name is taken: after a registration that succeeded,
    every POST to [register] with a name the backend takes for the same
    leaves the table as it is, flashes that the name exists and sends the
    browser back to the registration page, whatever password it brings. *)
Theorem registered_name_is_taken (K : Accounts.backend) (B : Accounts.Bcrypt)
    (salt salt' : string) (db db' : Accounts.table) (rq rq' : Accounts.request)
    (fl : list Accounts.flash) (name name' : string) :
  Accounts.register K B salt db rq
    = (db', fl, Accounts.Done (Accounts.Redirect "/login")) ->
  Accounts.form_username rq = Some name ->
  Accounts.req_method rq' = Accounts.POST ->
  Accounts.form_username rq' = Some name' ->
  Accounts.same_name K name name' = true ->
  Accounts.register K B salt' db' rq'
    = (db',
       [("Username already exists. Please choose a different one."%string,
         "message"%string)],
       Accounts.Done (Accounts.Redirect "/register")).
Proof.
  intros Hreg Hname Hpost Hname' Hsame.
  assert (Hdb : exists h,
             db' = db ++ [{| Accounts.id := Accounts.next_id db;
                             Accounts.username := name;
                             Accounts.password := h |}]).
  { revert Hreg. unfold Accounts.register.
    destruct (Accounts.req_method rq); [discriminate|].
    destruct (Accounts.first_by_username K db (Accounts.form_username rq));
      [discriminate|].
    destruct (Accounts.generate_password_hash B salt (Accounts.form_password rq))
      as [h|e]; [|discriminate].
    unfold Accounts.add_commit. rewrite Hname.
    destruct (_ || _); [discriminate|].
    intros H. inversion H; subst. now exists h. }
  destruct Hdb as (h & ->).
  unfold Accounts.register. rewrite Hpost, Hname'.
  unfold Accounts.first_by_username. rewrite AccountFacts.find_app.
  destruct (find _ db); [reflexivity|].
  simpl. now rewrite Hsame.
Qed.

Lemma registered_name_is_taken_witness :
  Accounts.register Accounts.binary_backend Accounts.toy_bcrypt "salt2"
    [{| Accounts.id := 1; Accounts.username := "ann"; Accounts.password := "h:secret" |}]
    (Accounts.post "ann" "other" None)
  = ([{| Accounts.id := 1; Accounts.username := "ann"; Accounts.password := "h:secret" |}],
     [("Username already exists. Please choose a different one."%string, "message"%string)],
     Accounts.Done (Accounts.Redirect "/register")).
Proof.
  apply (registered_name_is_taken Accounts.binary_backend Accounts.toy_bcrypt
           "salt" "salt2" []
           [{| Accounts.id := 1; Accounts.username := "ann";
               Accounts.password := "h:secret" |}]
           (Accounts.post "ann" "secret" None) (Accounts.post "ann" "other" None)
           [("Registration successful! Please log in."%string, "message"%string)]
           "ann" "ann"); reflexivity.
Defined.

Lemma recommend_movies_page_witness :
  exists pg,
    snd (recommend_movies test_env (scenario scenario_rest) world_ok (Some "Tenet"%string))
      = Ok pg /\
    movie_list pg = map PyStr.normalize (titles (scenario scenario_rest)) /\
    List.length (recommendations pg) <= 20.
Proof.
  eexists. split; [reflexivity|].
  match goal with
  | |- movie_list ?pg = _ /\ _ =>
      destruct (recommend_movies_page test_env (scenario scenario_rest) world_ok
                  (Some "Tenet"%string) pg eq_refl) as (_ & H2 & _ & _ & _ & H6 & _)
  end.
  split; [exact H2 | exact H6].
Defined.

(** ** The first failure ends the call *)

Module AbortFacts.

Lemma poster_raises (E : env) (g : http_get) (t : string) (e : exn) :
  g (poster_url E t) = Raise e -> fetch_movie_poster E g t = Raise e.
Proof. unfold fetch_movie_poster. now intros ->. Qed.

Lemma trailer_raises (E : env) (g : http_get) (t : string) (e : exn) :
  g (trailer_url E t) = Raise e -> fetch_movie_trailer E g t = Raise e.
Proof. unfold fetch_movie_trailer. now intros ->. Qed.

(** A loop started at or before request [k], in two worlds that agree up
    to request [k], where request [k] fails whatever the URL. *)
Lemma slots_stop (E : env) (col : list string) (w w' : world) (k : nat) :
  (forall n url, n <= k -> w' n url = w n url) ->
  (forall url, exists e, w k url = Raise e) ->
  forall ml j, j <= k -> slots E w' col ml j = slots E w col ml j.
Proof.
  intros Hagree Hfail. induction ml as [|i rest IH]; intros j Hj; simpl; [reflexivity|].
  unfold slot.
  destruct (at_index (nth_error col (fst i))) as [t|e]; simpl; [|reflexivity].
  rewrite (PipelineFacts.fetch_movie_poster_ext E (w j) (w' j) t (Hagree j _ Hj)).
  destruct (Nat.eq_dec j k) as [-> | Hjk].
  { destruct (Hfail (poster_url E t)) as (e & He).
    now rewrite (poster_raises E (w k) t e He). }
  destruct (fetch_movie_poster E (w j) t) as [p|e]; simpl; [|reflexivity].
  assert (Hj1 : S j <= k) by lia.
  rewrite (PipelineFacts.fetch_movie_trailer_ext E (w (S j)) (w' (S j)) t
             (Hagree (S j) _ Hj1)).
  destruct (Nat.eq_dec (S j) k) as [<- | Hjk1].
  { destruct (Hfail (trailer_url E t)) as (e & He).
    now rewrite (trailer_raises E (w (S j)) t e He). }
  destruct (fetch_movie_trailer E (w (S j)) t) as [v|e]; simpl; [|reflexivity].
  rewrite (IH (S (S j))) by lia. reflexivity.
Qed.

End AbortFacts.

(** X20.  A failed request ends the call.  If request number [k] fails on
    the network whatever its URL, nothing the providers would answer to
    later requests changes the store [recommend] leaves or what it returns
    or raises: no request is issued after the failure. *)
Theorem recommend_stops_at_failed_request (E : env) (st : store) (w w' : world)
    (movie : option string) (k : nat) :
  (forall n url, n <= k -> w' n url = w n url) ->
  (forall url, exists e, w k url = Raise e) ->
  recommend E st w' movie = recommend E st w movie.
Proof.
  intros Hagree Hfail. destruct movie as [m|]; [|reflexivity]. unfold recommend.
  destruct (String.eqb (PyStr.strip m) ""); [reflexivity|].
  cbv zeta. f_equal.
  destruct (negb _); [reflexivity|].
  destruct (at_index (first_index _ _)) as [idx|e]; simpl; [|reflexivity].
  destruct (at_index (nth_error _ idx)) as [row|e]; simpl; [|reflexivity].
  rewrite !PipelineFacts.enrich_slots.
  rewrite (AbortFacts.slots_stop E _ w w' k Hagree Hfail _ 0); [reflexivity | lia].
Qed.

Lemma recommend_stops_at_failed_request_witness :
  recommend test_env (scenario scenario_rest)
    (override (override world_ok 1 (Raise ConnectionError)) 2 (Ok not_found))
    (Some "Inception"%string) =
  recommend test_env (scenario scenario_rest)
    (override world_ok 1 (Raise ConnectionError)) (Some "Inception"%string).
Proof.
  apply (recommend_stops_at_failed_request test_env (scenario scenario_rest)
           (override world_ok 1 (Raise ConnectionError))
           (override (override world_ok 1 (Raise ConnectionError)) 2 (Ok not_found))
           (Some "Inception"%string) 1).
  - intros n url Hn. unfold override at 1.
    destruct (n =? 2) eqn:H2; [|reflexivity].
    apply Nat.eqb_eq in H2. lia.
  - intros url. exists ConnectionError. reflexivity.
Defined.
